(** * Random under-sampling: a shallow embedding of
      [imblearn/under_sampling/prototype_selection/random_under_sampler.py]

    The file embeds [RandomUnderSampler._sample] together with the parts of
    numpy and scikit-learn it calls ([np.unique], [np.flatnonzero],
    [np.count_nonzero], [RandomState.choice], [check_random_state],
    [safe_indexing]) and proves the properties of the resampling routine.

    Conventions.
    - Class labels are integers ([Z]); per-class target counts are natural
      numbers, as the fitted attribute [sampling_target_] holds counts.
    - A Python exception is a value of [exn]; code that may raise returns
      [exn + _], and code that also draws random numbers lives in the monad
      [M] (state of the generator, threaded through every draw).
    - The pseudo-random generator is abstract: the interface [RandomSource]
      gives the seeding function and the bounded draw [rk_interval] that
      numpy's [shuffle] and [randint] are built from. *)

From stdpp Require Import base numbers list list_numbers sorting gmap strings.

(** ** Exceptions *)

Inductive exn : Type :=
  | ValueError (msg : string)
  | IndexError (msg : string).

(** The error of a draw without replacement that asks for more items than the
    population holds: the [ValueError] raised by [RandomState.choice]. *)
Definition SamplingError : exn :=
  ValueError "Cannot take a larger sample than population when 'replace=False'".

Definition EmptyPopulation : exn := ValueError "a must be non-empty".

Definition OutOfBounds : exn := IndexError "index out of bounds".

(** ** The numpy array functions used by the sampler *)

Module np.

(** Insertion of one value in a strictly ascending list. *)
Fixpoint insert_sorted (c : Z) (l : list Z) : list Z :=
  match l with
  | [] => [c]
  | d :: l' =>
      if (c <? d)%Z then c :: l
      else if (c =? d)%Z then l
      else d :: insert_sorted c l'
  end.

(** [np.unique(y)]: the sorted distinct values of [y]. *)
Definition unique (y : list Z) : list Z := foldr insert_sorted [] y.

(** [y == c]: the element-wise comparison, a boolean array. *)
Definition equal (y : list Z) (c : Z) : list bool :=
  (λ v, (v =? c)%Z) <$> y.

Fixpoint flatnonzero_from (i : nat) (b : list bool) : list nat :=
  match b with
  | [] => []
  | x :: b' =>
      if x then i :: flatnonzero_from (S i) b' else flatnonzero_from (S i) b'
  end.

(** [np.flatnonzero(b)]: the positions of the true entries, ascending. *)
Definition flatnonzero (b : list bool) : list nat := flatnonzero_from 0 b.

(** [np.count_nonzero(b)]. *)
Fixpoint count_nonzero (b : list bool) : nat :=
  match b with
  | [] => 0
  | x :: b' => if x then S (count_nonzero b') else count_nonzero b'
  end.

(** [a[ix]] for an integer array [ix]: one item per index, in the order of
    [ix]; an index past the end raises [IndexError]. *)
Fixpoint take {A} (a : list A) (ix : list nat) : exn + list A :=
  match ix with
  | [] => inr []
  | i :: ix' =>
      match a !! i with
      | None => inl OutOfBounds
      | Some x =>
          match take a ix' with
          | inl e => inl e
          | inr xs => inr (x :: xs)
          end
      end
  end.

(** What the sampler indexes an array with: [slice(None)] or an integer
    array. *)
Inductive index : Type :=
  | slice_None
  | int_array (ix : list nat).

Definition getitem {A} (a : list A) (ix : index) : exn + list A :=
  match ix with
  | slice_None => inr a
  | int_array ix => take a ix
  end.

End np.

(** ** Feature matrices and [safe_indexing] *)

(** The two supported representations: a dense array of rows, and a sparse
    matrix whose rows map a column to its stored entry. *)
Inductive matrix (A : Type) : Type :=
  | Dense (rows : list (list A))
  | Sparse (ncols : nat) (rows : list (gmap nat A)).
Arguments Dense {A} rows.
Arguments Sparse {A} ncols rows.

Definition n_rows {A} (X : matrix A) : nat :=
  match X with
  | Dense rows => length rows
  | Sparse _ rows => length rows
  end.

Definition densify_row {A} (zero : A) (ncols : nat) (r : gmap nat A) : list A :=
  (λ j, default zero (r !! j)) <$> seq 0 ncols.

(** The logical content of a matrix: its rows, written densely. *)
Definition to_dense {A} (zero : A) (X : matrix A) : list (list A) :=
  match X with
  | Dense rows => rows
  | Sparse ncols rows => densify_row zero ncols <$> rows
  end.

(** One row of a matrix, in the representation of the matrix. *)
Inductive row (A : Type) : Type :=
  | DenseRow (r : list A)
  | SparseRow (ncols : nat) (r : gmap nat A).
Arguments DenseRow {A} r.
Arguments SparseRow {A} ncols r.

Definition matrix_rows {A} (X : matrix A) : list (row A) :=
  match X with
  | Dense rows => DenseRow <$> rows
  | Sparse ncols rows => SparseRow ncols <$> rows
  end.

(** [safe_indexing(X, indices)]: the rows (or items) of [X] at [indices]. *)
Class SafeIndexing (T : Type) := safe_indexing : T → list nat → exn + T.

Global Instance labels_safe_indexing : SafeIndexing (list Z) := np.take.

Global Instance matrix_safe_indexing {A} : SafeIndexing (matrix A) :=
  λ X ix,
    match X with
    | Dense rows =>
        match np.take rows ix with
        | inl e => inl e
        | inr rows' => inr (Dense rows')
        end
    | Sparse ncols rows =>
        match np.take rows ix with
        | inl e => inl e
        | inr rows' => inr (Sparse ncols rows')
        end
    end.

(** ** The random source *)

(** The generator behind [RandomState]: its state, its seeding, and
    [rk_interval max], a draw in [[0, max]] that advances the state. *)
Class RandomSource : Type := {
  rk_state : Type;
  rk_seed : Z → rk_state;
  rk_interval : nat → rk_state → nat * rk_state;
}.

(** The one law of the interface: a bounded draw stays within its bound. *)
Class RandomSourceOk (R : RandomSource) : Prop :=
  rk_interval_le : ∀ (max : nat) (st : rk_state), (rk_interval max st).1 ≤ max.

(** A small linear congruential generator, used to run the sampler on
    concrete data. *)
Definition lcg_next (s : N) : N := ((1103515245 * s + 12345) mod 2147483648)%N.

Global Instance lcg : RandomSource := {|
  rk_state := N;
  rk_seed := λ seed, Z.to_N (seed mod 2147483648);
  rk_interval := λ max s,
    let s' := lcg_next s in
    (N.to_nat ((s' / 65536) mod N.of_nat (S max)), s');
|}.

(** ** The sampler *)

(** The result tuple of [_sample]: two components, or three when
    [return_indices] is set. *)
Inductive sampled (A : Type) : Type :=
  | Resampled (X_resampled : matrix A) (y_resampled : list Z)
  | ResampledIdx (X_resampled : matrix A) (y_resampled : list Z)
                 (idx_under : list nat).
Arguments Resampled {A} X_resampled y_resampled.
Arguments ResampledIdx {A} X_resampled y_resampled idx_under.

Definition features_out {A} (r : sampled A) : matrix A :=
  match r with
  | Resampled X _ => X
  | ResampledIdx X _ _ => X
  end.

Definition labels_out {A} (r : sampled A) : list Z :=
  match r with
  | Resampled _ y => y
  | ResampledIdx _ y _ => y
  end.

Definition indices_out {A} (r : sampled A) : option (list nat) :=
  match r with
  | Resampled _ _ => None
  | ResampledIdx _ _ idx => Some idx
  end.

Section sampler.
Context {R : RandomSource}.

(** *** The monad of random computations that may raise *)

(** A computation reads the state of the generator and either raises, or
    returns a value and the state after its draws. *)

Definition M (A : Type) : Type := rk_state → exn + A * rk_state.

Definition ret {A} (a : A) : M A := λ st, inr (a, st).

Definition raise {A} (e : exn) : M A := λ _, inl e.

Definition bind {A B} (m : M A) (f : A → M B) : M B :=
  λ st,
    match m st with
    | inl e => inl e
    | inr (a, st') => f a st'
    end.

Definition lift {A} (r : exn + A) : M A :=
  λ st,
    match r with
    | inl e => inl e
    | inr a => inr (a, st)
    end.

Definition draw (max : nat) : M nat := λ st, inr (rk_interval max st).

Notation "'do' x <- m ; k" := (bind m (λ x, k))
  (at level 10, x name, m at level 100, k at level 200,
   format "'[v' 'do'  x  <-  m ; '/' k ']'").

(** *** [RandomState] methods *)

(** [x[i], x[j] = x[j], x[i]]: both items are read, then [x[i]] and [x[j]]
    are written in that order.  [shuffle] only exchanges positions
    [j ≤ i < len(x)]; outside the array (where Python raises) the array is
    left as it is. *)
Definition swap (x : list nat) (i j : nat) : list nat :=
  match x !! i, x !! j with
  | Some xi, Some xj => <[j := xi]> (<[i := xj]> x)
  | _, _ => x
  end.

(** The loop of [shuffle]: [for i in reversed(range(1, n))], each round
    draws [j] in [[0, i]] and exchanges the items at [i] and [j]. *)
Fixpoint shuffle_from (i : nat) (x : list nat) : M (list nat) :=
  match i with
  | 0 => ret x
  | S i' =>
      do j <- draw i;
      shuffle_from i' (swap x i j)
  end.

Definition shuffle (x : list nat) : M (list nat) :=
  shuffle_from (length x - 1) x.

(** [permutation(n)]: [arange(n)], shuffled. *)
Definition permutation (n : nat) : M (list nat) := shuffle (seq 0 n).

(** [randint(0, high, size=n)]: [n] successive draws below [high]. *)
Fixpoint randint (high n : nat) : M (list nat) :=
  match n with
  | 0 => ret []
  | S n' =>
      do v <- draw (high - 1);
      do vs <- randint high n';
      ret (v :: vs)
  end.

(** [choice(range(pop_size), size=size, replace=replace)], with no
    probabilities given: an empty population is refused; with replacement
    the positions are [randint(0, pop_size, size)]; without, a request
    larger than the population is refused and the positions are
    [permutation(pop_size)[:size]]; the result is [a[idx]] for
    [a = range(pop_size)]. *)
Definition choice (pop_size size : nat) (replace : bool) : M (list nat) :=
  if decide (pop_size = 0) then raise EmptyPopulation
  else
    do idx <-
      (if replace then randint pop_size size
       else if decide (pop_size < size) then raise SamplingError
       else do p <- permutation pop_size; ret (take size p));
    lift (np.take (seq 0 pop_size) idx).

(** *** The estimator *)

(** The [random_state] parameter: [None], an integer seed, or a
    [RandomState] instance (given by its current state). *)
Inductive random_state_arg : Type :=
  | RsNone
  | RsInt (seed : Z)
  | RsInstance (st : rk_state).

(** [check_random_state]: [None] is the process-wide generator, an integer
    makes a fresh generator seeded with it, an instance is used as is. *)
Definition check_random_state (seed : random_state_arg)
    (mtrand_rand : rk_state) : rk_state :=
  match seed with
  | RsNone => mtrand_rand
  | RsInt n => rk_seed n
  | RsInstance st => st
  end.

Record RandomUnderSampler : Type := {
  sampling_target_ : gmap Z nat;
  return_indices : bool;
  random_state : random_state_arg;
  replacement : bool;
}.

(** One round of the loop over the classes: the index into the class's
    rows, then the class's block appended to [idx_under]. *)
Definition sample_class (self : RandomUnderSampler) (y : list Z)
    (idx_under : list nat) (target_class : Z) : M (list nat) :=
  do index_target_class <-
    match sampling_target_ self !! target_class with
    | Some n_samples =>
        do ix <- choice (np.count_nonzero (np.equal y target_class))
                        n_samples (replacement self);
        ret (np.int_array ix)
    | None => ret np.slice_None
    end;
  do block <-
    lift (np.getitem (np.flatnonzero (np.equal y target_class))
                     index_target_class);
  ret (idx_under ++ block).

(** [for target_class in classes: ...], from the accumulator [idx_under]. *)
Fixpoint sample_classes (self : RandomUnderSampler) (y : list Z)
    (classes : list Z) (idx_under : list nat) : M (list nat) :=
  match classes with
  | [] => ret idx_under
  | target_class :: classes' =>
      do idx_under' <- sample_class self y idx_under target_class;
      sample_classes self y classes' idx_under'
  end.

(** The Index Selection of one call: the loop over [np.unique(y)], run on
    the generator that [check_random_state] returns. [mtrand_rand] is the
    state of the process-wide generator when the call starts. *)
Definition index_selection (self : RandomUnderSampler) (y : list Z)
    (mtrand_rand : rk_state) : exn + list nat :=
  match sample_classes self y (np.unique y) []
          (check_random_state (random_state self) mtrand_rand) with
  | inl e => inl e
  | inr (idx_under, _) => inr idx_under
  end.

(** [RandomUnderSampler._sample]. *)
Definition _sample {A} (self : RandomUnderSampler) (X : matrix A)
    (y : list Z) (mtrand_rand : rk_state) : exn + sampled A :=
  match index_selection self y mtrand_rand with
  | inl e => inl e
  | inr idx_under =>
      match safe_indexing X idx_under with
      | inl e => inl e
      | inr X_resampled =>
          match safe_indexing y idx_under with
          | inl e => inl e
          | inr y_resampled =>
              if return_indices self
              then inr (ResampledIdx X_resampled y_resampled idx_under)
              else inr (Resampled X_resampled y_resampled)
          end
      end
  end.

(** *** Quantities the properties are stated with *)

(** The number of rows of [y] labelled [c]. *)
Definition class_count (y : list Z) (c : Z) : nat :=
  np.count_nonzero (np.equal y c).

(** The positions of the rows of [y] labelled [c], ascending. *)
Definition class_rows (y : list Z) (c : Z) : list nat :=
  np.flatnonzero (np.equal y c).

(** The count asked of class [c], if any, can be drawn: without replacement
    it does not exceed the size of the class. *)
Definition class_feasible (self : RandomUnderSampler) (y : list Z) (c : Z) :
    bool :=
  match sampling_target_ self !! c with
  | Some n => replacement self || bool_decide (n ≤ class_count y c)
  | None => true
  end.

(** Every count asked of a class of [y] can be drawn. *)
Definition feasible (self : RandomUnderSampler) (y : list Z) : bool :=
  forallb (class_feasible self y) (np.unique y).

(** Every key of the target mapping is a class of [y]. *)
Definition keys_present (m : gmap Z nat) (y : list Z) : Prop :=
  map_Forall (λ c _, c ∈ y) m.

(** The sum of the target counts over the keys of the mapping. *)
Definition targeted_total (m : gmap Z nat) : nat :=
  map_fold (λ _ n acc, n + acc) 0 m.

(** The sum of the original counts over the classes of [y] that the mapping
    does not name. *)
Definition untargeted_total (m : gmap Z nat) (y : list Z) : nat :=
  sum_list ((λ c, match m !! c with
                  | Some _ => 0
                  | None => class_count y c
                  end) <$> np.unique y).

(** The resolved count of class [c]: the count asked when [c] is a key of
    the mapping, the original count otherwise. *)
Definition resolved_count (m : gmap Z nat) (y : list Z) (c : Z) : nat :=
  match m !! c with
  | Some n => n
  | None => class_count y c
  end.

(** The sub-sequence of [idx] made of the positions labelled [c]. *)
Definition rows_of_class (y : list Z) (c : Z) (idx : list nat) : list nat :=
  filter (λ i, y !! i = Some c) idx.

(** [rows] read at the relative positions [draws], in the order of [draws]. *)
Definition drawn_from (rows draws block : list nat) : Prop :=
  Forall2 (λ j i, rows !! j = Some i) draws block.

(** The trace of the loop: the blocks contributed for [classes], in order,
    when the generator starts in state [st].  A class that is not a key
    contributes all its rows; a class that is a key contributes its rows at
    the positions [choice] returns, in the order [choice] returns them. *)
Inductive class_blocks (self : RandomUnderSampler) (y : list Z) :
    list Z → rk_state → list (list nat) → Prop :=
  | blocks_nil st : class_blocks self y [] st []
  | blocks_whole c classes st blocks :
      sampling_target_ self !! c = None →
      class_blocks self y classes st blocks →
      class_blocks self y (c :: classes) st (class_rows y c :: blocks)
  | blocks_drawn c classes st n draws st' block blocks :
      sampling_target_ self !! c = Some n →
      choice (class_count y c) n (replacement self) st = inr (draws, st') →
      drawn_from (class_rows y c) draws block →
      class_blocks self y classes st' blocks →
      class_blocks self y (c :: classes) st (block :: blocks).

(** What is known of the block of class [c]: it holds rows labelled [c]
    only; all of them in ascending order when [c] is not a key; as many as
    asked when it is, without repeats when drawn without replacement, and
    then all of them when the count asked is the size of the class. *)
Definition block_ok (self : RandomUnderSampler) (y : list Z) (c : Z)
    (block : list nat) : Prop :=
  Forall (λ i, y !! i = Some c) block ∧
  match sampling_target_ self !! c with
  | None => block = class_rows y c
  | Some n =>
      length block = n ∧
      (replacement self = false →
       NoDup block ∧ (n = class_count y c → block ≡ₚ class_rows y c))
  end.

(** The result [r] is [X] and [y] read at the positions [idx], row for row. *)
Definition sliced_at {A} (X : matrix A) (y : list Z) (idx : list nat)
    (r : sampled A) : Prop :=
  Forall2 (λ i x, matrix_rows X !! i = Some x) idx
          (matrix_rows (features_out r)) ∧
  Forall2 (λ i v, y !! i = Some v) idx (labels_out r).

(** The call returns [r], built from the Index Selection [idx]; [idx] is
    part of [r] exactly when [return_indices] is set. *)
Definition sample_returns {A} (self : RandomUnderSampler) (X : matrix A)
    (y : list Z) (mtrand_rand : rk_state) (idx : list nat) (r : sampled A) :
    Prop :=
  index_selection self y mtrand_rand = inr idx ∧
  _sample self X y mtrand_rand = inr r ∧
  indices_out r = (if return_indices self then Some idx else None) ∧
  sliced_at X y idx r.

(** The estimator with another target mapping. *)
Definition with_target (self : RandomUnderSampler) (m : gmap Z nat) :
    RandomUnderSampler :=
  {| sampling_target_ := m;
     return_indices := return_indices self;
     random_state := random_state self;
     replacement := replacement self |}.

(** The labels grouped class by class in ascending order, each class of
    [y] as many times as its resolved count. *)
Definition grouped_labels (m : gmap Z nat) (y : list Z) : list Z :=
  concat ((λ c, replicate (resolved_count m y c) c) <$> np.unique y).

(** The positions of the rows of [y] grouped class by class in ascending
    order, in original order within a class. *)
Definition grouped_rows (y : list Z) : list nat :=
  concat (class_rows y <$> np.unique y).

End sampler.

(** ** A small data set, to run the sampler on *)

(** Six rows, two of class 0 and four of class 1. *)
Definition ex_y : list Z := [1; 0; 1; 1; 0; 1]%Z.

Definition ex_X : matrix Z := Dense [[10]; [11]; [12]; [13]; [14]; [15]]%Z.

(** The same rows, stored sparsely. *)
Definition ex_X_sparse : matrix Z :=
  Sparse 1 [{[0 := 10%Z]}; {[0 := 11%Z]}; {[0 := 12%Z]}; {[0 := 13%Z]};
            {[0 := 14%Z]}; {[0 := 15%Z]}].

(** Features with fewer rows than there are labels. *)
Definition ex_X_short : matrix Z := Dense [[10]; [11]; [12]]%Z.

(** An estimator seeded with an integer, which asks [n] rows of class
    [c]. *)
Definition ex_sampler (c : Z) (n : nat) (replace : bool) :
    RandomUnderSampler (R := lcg) :=
  {| sampling_target_ := {[ c := n ]};
     return_indices := true;
     random_state := RsInt 2;
     replacement := replace |}.

(** * Properties *)

(** ** Arrays *)

Section array_facts.

Lemma insert_sorted_elem (c d : Z) (l : list Z) :
  d ∈ np.insert_sorted c l ↔ d = c ∨ d ∈ l.
Proof.
  induction l as [|e l IH]; simpl.
  - by rewrite elem_of_cons.
  - destruct (Z.ltb_spec c e); [apply elem_of_cons|].
    destruct (Z.eqb_spec c e) as [->|].
    + split; [by right|]. intros [->|?]; [by left|done].
    + rewrite !elem_of_cons, IH. tauto.
Qed.

Lemma insert_sorted_sorted (c : Z) (l : list Z) :
  StronglySorted Z.lt l → StronglySorted Z.lt (np.insert_sorted c l).
Proof.
  induction 1 as [|e l Hl IH He]; simpl.
  - repeat constructor.
  - destruct (Z.ltb_spec c e) as [Hlt|Hge].
    + constructor; [by constructor|].
      constructor; [done|]. eapply Forall_impl; [exact He|].
      intros x Hx. simpl in Hx. lia.
    + destruct (Z.eqb_spec c e) as [->|Hne]; [by constructor|].
      constructor; [done|].
      apply Forall_forall. intros x [->|Hx]%insert_sorted_elem; [lia|].
      rewrite Forall_forall in He. by apply He.
Qed.

Lemma unique_elem (y : list Z) (c : Z) : c ∈ np.unique y ↔ c ∈ y.
Proof.
  unfold np.unique. induction y as [|v y IH]; simpl; [done|].
  by rewrite insert_sorted_elem, IH, elem_of_cons.
Qed.

Lemma unique_sorted (y : list Z) : StronglySorted Z.lt (np.unique y).
Proof.
  unfold np.unique. induction y as [|v y IH]; simpl; [constructor|].
  by apply insert_sorted_sorted.
Qed.

Lemma strictly_sorted_NoDup (l : list Z) : StronglySorted Z.lt l → NoDup l.
Proof.
  induction 1 as [|e l Hl IH He]; constructor; [|done].
  intros Hin. rewrite Forall_forall in He. specialize (He _ Hin). lia.
Qed.

Lemma unique_NoDup (y : list Z) : NoDup (np.unique y).
Proof. apply strictly_sorted_NoDup, unique_sorted. Qed.

Lemma flatnonzero_from_elem (b : list bool) (k i : nat) :
  i ∈ np.flatnonzero_from k b ↔ k ≤ i ∧ b !! (i - k) = Some true.
Proof.
  revert k. induction b as [|x b IH]; intros k; simpl.
  - split; [by intros ?%elem_of_nil|by intros [_ ?]].
  - assert (Hstep : k ≤ i → i ≠ k → (x :: b) !! (i - k) = b !! (i - S k)).
    { intros ? ?. by replace (i - k) with (S (i - S k)) by lia. }
    destruct x.
    + rewrite elem_of_cons, IH. split.
      * intros [->|[? Hb]]; [by rewrite Nat.sub_diag|].
        split; [lia|]. rewrite Hstep; [done|lia..].
      * intros [Hle Hb]. destruct (decide (i = k)) as [->|Hne]; [by left|].
        right. split; [lia|]. by rewrite <- Hstep.
    + rewrite IH. split.
      * intros [? Hb]. split; [lia|]. rewrite Hstep; [done|lia..].
      * intros [Hle Hb]. destruct (decide (i = k)) as [->|Hne].
        { by rewrite Nat.sub_diag in Hb. }
        split; [lia|]. by rewrite <- Hstep.
Qed.

Lemma flatnonzero_from_sorted (b : list bool) (k : nat) :
  StronglySorted lt (np.flatnonzero_from k b).
Proof.
  revert k. induction b as [|x b IH]; intros k; simpl; [constructor|].
  destruct x; [|apply IH].
  constructor; [apply IH|].
  apply Forall_forall. intros i [? _]%flatnonzero_from_elem. lia.
Qed.

Lemma flatnonzero_from_length (b : list bool) (k : nat) :
  length (np.flatnonzero_from k b) = np.count_nonzero b.
Proof.
  revert k. induction b as [|x b IH]; intros k; simpl; [done|].
  destruct x; simpl; by rewrite IH.
Qed.

Lemma equal_lookup (y : list Z) (c : Z) (i : nat) :
  np.equal y c !! i = Some true ↔ y !! i = Some c.
Proof.
  unfold np.equal. rewrite list_lookup_fmap.
  destruct (y !! i) as [v|]; simpl; [|done].
  destruct (Z.eqb_spec v c); naive_solver.
Qed.

Lemma take_spec {A} (a : list A) (ix : list nat) (xs : list A) :
  np.take a ix = inr xs ↔ Forall2 (λ i x, a !! i = Some x) ix xs.
Proof.
  revert xs. induction ix as [|i ix IH]; intros xs; simpl.
  - split; [intros [= <-]; constructor|by intros ->%Forall2_nil_inv_l].
  - split.
    + destruct (a !! i) as [x|] eqn:Hi; [|done].
      destruct (np.take a ix) as [e|xs'] eqn:Hix; [done|].
      intros [= <-]. constructor; [done|]. by apply IH.
    + intros (x & xs' & Hx & Hxs & ->)%Forall2_cons_inv_l.
      rewrite Hx. apply IH in Hxs. by rewrite Hxs.
Qed.

Lemma take_in_range {A} (a : list A) (ix : list nat) :
  Forall (λ i, i < length a) ix → ∃ xs, np.take a ix = inr xs.
Proof.
  induction 1 as [|i ix Hi _ [xs IH]]; simpl; [by eexists|].
  destruct (lookup_lt_is_Some_2 a i Hi) as [x ->]. rewrite IH. by eexists.
Qed.

Lemma take_error {A} (a : list A) (ix : list nat) (e : exn) :
  np.take a ix = inl e → e = OutOfBounds.
Proof.
  induction ix as [|i ix IH]; simpl; [done|].
  destruct (a !! i); [|by intros [= <-]].
  destruct (np.take a ix); [|done]. intros [= <-]. by apply IH.
Qed.

Lemma take_fmap {A B} (f : A → B) (a : list A) (ix : list nat) :
  np.take (f <$> a) ix =
  match np.take a ix with
  | inl e => inl e
  | inr xs => inr (f <$> xs)
  end.
Proof.
  induction ix as [|i ix IH]; simpl; [done|].
  rewrite list_lookup_fmap. destruct (a !! i); simpl; [|done].
  rewrite IH. by destruct (np.take a ix).
Qed.

Lemma take_seq_inv (k : nat) (ix xs : list nat) :
  np.take (seq 0 k) ix = inr xs → xs = ix ∧ Forall (λ i, i < k) ix.
Proof.
  intros H%take_spec. induction H as [|i x ix xs Hi _ [-> IH]].
  - by split.
  - apply lookup_seq in Hi as [-> ?]. split; [done|]. by constructor.
Qed.

Lemma take_seq (k : nat) (ix : list nat) :
  Forall (λ i, i < k) ix → np.take (seq 0 k) ix = inr ix.
Proof.
  intros H. apply take_spec. induction H; constructor; [|done].
  by apply lookup_seq.
Qed.

End array_facts.

(** ** The monad *)

Section monad_facts.
Context {R : RandomSource}.

Lemma bind_inr {A B} (m : M A) (f : A → M B) st (r : B * rk_state) :
  bind m f st = inr r ↔ ∃ a st', m st = inr (a, st') ∧ f a st' = inr r.
Proof.
  unfold bind. destruct (m st) as [e|[a st']]; split.
  - done.
  - by intros (? & ? & ? & _).
  - by exists a, st'.
  - by intros (? & ? & [= <- <-] & ?).
Qed.

Lemma bind_inl {A B} (m : M A) (f : A → M B) st (e : exn) :
  bind m f st = inl e ↔
  m st = inl e ∨ ∃ a st', m st = inr (a, st') ∧ f a st' = inl e.
Proof.
  unfold bind. destruct (m st) as [e'|[a st']]; split.
  - intros [= <-]. by left.
  - by intros [[= <-]|(? & ? & ? & _)].
  - right. by exists a, st'.
  - by intros [?|(? & ? & [= <- <-] & ?)].
Qed.

Lemma lift_inr {A} (r : exn + A) st (a : A) st' :
  lift r st = inr (a, st') ↔ r = inr a ∧ st' = st.
Proof.
  unfold lift. destruct r as [e|a0]; split.
  - done.
  - by intros [? _].
  - by intros [= -> ->].
  - by intros [[= ->] ->].
Qed.

Lemma ret_inr {A} (a b : A) (st st' : rk_state) :
  ret a st = inr (b, st') ↔ b = a ∧ st' = st.
Proof. unfold ret. split; [by intros [= -> ->]|by intros [-> ->]]. Qed.

End monad_facts.

(** Inversion of a successful run of a monadic computation. *)
Ltac inv_run H :=
  repeat match type of H with
  | bind _ _ _ = inr _ =>
      let a := fresh "a" in let st := fresh "st" in let H1 := fresh "Hrun" in
      apply bind_inr in H as (a & st & H1 & H)
  | ret _ _ = inr _ => apply ret_inr in H as [-> ->]
  | lift _ _ = inr _ => apply lift_inr in H as [H ->]
  end.

(** ** The generator methods *)

Section random_facts.
Context {R : RandomSource}.

Lemma swap_length (x : list nat) (i j : nat) : length (swap x i j) = length x.
Proof.
  unfold swap. destruct (x !! i), (x !! j); try done.
  by rewrite !length_insert.
Qed.

Lemma swap_perm (x : list nat) (i j : nat) : swap x i j ≡ₚ x.
Proof.
  unfold swap.
  destruct (x !! i) as [xi|] eqn:Hi; [|done].
  destruct (x !! j) as [xj|] eqn:Hj; [|done].
  apply Permutation_inj. split; [by rewrite !length_insert|].
  exists (λ k, if decide (k = i) then j else if decide (k = j) then i else k).
  split.
  - intros k1 k2. repeat case_decide; congruence.
  - intros k. apply lookup_lt_Some in Hi as Hli. apply lookup_lt_Some in Hj as Hlj.
    rewrite !list_lookup_insert, !length_insert.
    repeat case_decide; subst; try congruence; try lia.
    destruct H as [-> _]. congruence.
Qed.

Lemma shuffle_from_perm (i : nat) (x : list nat) st :
  ∃ x' st', shuffle_from i x st = inr (x', st') ∧ x' ≡ₚ x.
Proof.
  revert x st. induction i as [|i IH]; intros x st; simpl.
  - by exists x, st.
  - unfold bind, draw. destruct (rk_interval (S i) st) as [j st1].
    destruct (IH (swap x (S i) j) st1) as (x' & st' & -> & Hp).
    exists x', st'. split; [done|]. by rewrite Hp, swap_perm.
Qed.

Lemma permutation_perm (n : nat) st :
  ∃ p st', permutation n st = inr (p, st') ∧ p ≡ₚ seq 0 n.
Proof. apply shuffle_from_perm. Qed.

Lemma randint_spec `{!RandomSourceOk R} (high n : nat) st :
  0 < high →
  ∃ vs st', randint high n st = inr (vs, st') ∧
            length vs = n ∧ Forall (λ v, v < high) vs.
Proof.
  intros Hhigh. revert st. induction n as [|n IH]; intros st; simpl.
  - by exists [], st.
  - unfold bind, draw.
    pose proof (rk_interval_le (high - 1) st) as Hle.
    destruct (rk_interval (high - 1) st) as [v st1]. simpl in Hle.
    destruct (IH st1) as (vs & st' & -> & Hlen & Hvs).
    exists (v :: vs), st'. split; [done|]. split; [by rewrite <- Hlen|].
    constructor; [lia|done].
Qed.

Lemma randint_length (high n : nat) st (vs : list nat) st' :
  randint high n st = inr (vs, st') → length vs = n.
Proof.
  revert st vs. induction n as [|n IH]; intros st vs H; simpl in H.
  - by inv_run H.
  - inv_run H. simpl. f_equal. by eapply IH.
Qed.

(** What a successful [choice] returns. *)
Lemma choice_inv (k n : nat) (replace : bool) st (draws : list nat) st' :
  choice k n replace st = inr (draws, st') →
  length draws = n ∧ Forall (λ j, j < k) draws ∧
  (replace = false → NoDup draws ∧ (n = k → draws ≡ₚ seq 0 k)).
Proof.
  unfold choice. case_decide as Hk; [done|]. intros H. inv_run H.
  apply take_seq_inv in H as [-> Hlt].
  destruct replace.
  - apply randint_length in Hrun. by repeat split.
  - case_decide as Hn; [done|]. inv_run Hrun.
    destruct (permutation_perm k st) as (p & s & Hp & Hperm).
    rewrite Hp in Hrun0. injection Hrun0 as <- <-.
    assert (length p = k) as Hlen by by rewrite Hperm, length_seq.
    split; [rewrite length_take; lia|]. split; [done|].
    intros _. split.
    + eapply sublist_NoDup; [|apply sublist_take].
      rewrite Hperm. apply NoDup_seq.
    + intros ->. rewrite take_ge; [done|lia].
Qed.

(** When [choice] succeeds. *)
Lemma choice_succeeds `{!RandomSourceOk R} (k n : nat) (replace : bool) st :
  0 < k → (replace = false → n ≤ k) →
  ∃ draws st', choice k n replace st = inr (draws, st').
Proof.
  intros Hk Hn. unfold choice. case_decide; [lia|]. unfold bind at 1.
  destruct replace.
  - destruct (randint_spec k n st Hk) as (vs & st' & -> & _ & Hvs).
    unfold lift. rewrite take_seq by done. by eexists _, _.
  - case_decide; [specialize (Hn eq_refl); lia|]. unfold bind.
    destruct (permutation_perm k st) as (p & st1 & -> & Hperm). unfold ret.
    unfold lift. rewrite take_seq; [by eexists _, _|].
    apply Forall_take. rewrite Hperm. apply Forall_seq. lia.
Qed.

(** A draw without replacement of more items than the population holds. *)
Lemma choice_too_many (k n : nat) st :
  0 < k → k < n → choice k n false st = inl SamplingError.
Proof.
  intros Hk Hn. unfold choice. case_decide; [lia|]. unfold bind at 1.
  by case_decide; [|lia].
Qed.

End random_facts.

(** ** The rows of a class *)

Section class_facts.

Lemma class_rows_elem (y : list Z) (c : Z) (i : nat) :
  i ∈ class_rows y c ↔ y !! i = Some c.
Proof.
  unfold class_rows, np.flatnonzero.
  rewrite flatnonzero_from_elem, Nat.sub_0_r, equal_lookup.
  split; [by intros [_ ?]|]. split; [lia|done].
Qed.

Lemma class_rows_length (y : list Z) (c : Z) :
  length (class_rows y c) = class_count y c.
Proof. apply flatnonzero_from_length. Qed.

Lemma class_rows_sorted (y : list Z) (c : Z) :
  StronglySorted lt (class_rows y c).
Proof. apply flatnonzero_from_sorted. Qed.

Lemma class_rows_NoDup (y : list Z) (c : Z) : NoDup (class_rows y c).
Proof.
  generalize (class_rows_sorted y c).
  induction 1 as [|i l Hl IH Hi]; constructor; [|done].
  intros Hin. rewrite Forall_forall in Hi. specialize (Hi _ Hin). lia.
Qed.

Lemma class_count_pos (y : list Z) (c : Z) : c ∈ y → 0 < class_count y c.
Proof.
  intros [i Hi]%list_elem_of_lookup. apply class_rows_elem in Hi.
  rewrite <- class_rows_length.
  destruct (class_rows y c); [by apply elem_of_nil in Hi|simpl; lia].
Qed.

Lemma class_count_filter (y : list Z) (c : Z) :
  class_count y c = length (filter (λ v, v = c) y).
Proof.
  unfold class_count, np.equal. induction y as [|v y IH]; simpl; [done|].
  rewrite filter_cons. destruct (Z.eqb_spec v c); case_decide; try done.
  simpl. apply (f_equal S), IH.
Qed.

(** Reading [rows] at [draws] is mapping the read over [draws]. *)
Lemma drawn_from_fmap (rows draws block : list nat) :
  drawn_from rows draws block →
  block = (λ j, default 0 (rows !! j)) <$> draws.
Proof.
  induction 1 as [|j i draws block Hj _ IH]; simpl; [done|].
  by rewrite Hj, IH.
Qed.

Lemma drawn_from_elem (rows draws block : list nat) (i : nat) :
  drawn_from rows draws block → i ∈ block → i ∈ rows.
Proof.
  intros H [k Hk]%list_elem_of_lookup.
  destruct (Forall2_lookup_r _ _ _ _ _ H Hk) as (j & _ & Hj).
  by eapply list_elem_of_lookup_2.
Qed.

Lemma drawn_from_NoDup (rows draws block : list nat) :
  NoDup rows → NoDup draws → drawn_from rows draws block → NoDup block.
Proof.
  intros Hrows Hdraws H. rewrite (drawn_from_fmap _ _ _ H).
  apply NoDup_fmap_2_strong; [|done].
  intros j1 j2 [k1 Hk1]%list_elem_of_lookup [k2 Hk2]%list_elem_of_lookup.
  destruct (Forall2_lookup_l _ _ _ _ _ H Hk1) as (i1 & _ & Hi1).
  destruct (Forall2_lookup_l _ _ _ _ _ H Hk2) as (i2 & _ & Hi2).
  rewrite Hi1, Hi2. simpl. intros <-.
  exact (NoDup_lookup _ _ _ _ Hrows Hi1 Hi2).
Qed.

Lemma drawn_from_all (rows draws block : list nat) :
  draws ≡ₚ seq 0 (length rows) → drawn_from rows draws block → block ≡ₚ rows.
Proof.
  intros Hp H. rewrite (drawn_from_fmap _ _ _ H), Hp.
  assert ((λ j, default 0 (rows !! j)) <$> seq 0 (length rows) = rows) as ->;
    [|done].
  apply list_eq. intros k. rewrite list_lookup_fmap.
  destruct (decide (k < length rows)) as [Hk|Hk].
  - rewrite lookup_seq_lt by done. simpl.
    by destruct (lookup_lt_is_Some_2 rows k Hk) as [i ->].
  - rewrite lookup_seq_ge, lookup_ge_None_2 by lia. done.
Qed.

End class_facts.

(** ** The loop over the classes *)

Section loop_facts.
Context {R : RandomSource}.
Implicit Types (self : RandomUnderSampler) (y : list Z) (c : Z).

(** One round of the loop, in terms of [choice] and of the indexing. *)
Lemma sample_class_run self y idx c st :
  sample_class self y idx c st =
  match sampling_target_ self !! c with
  | None => inr (idx ++ class_rows y c, st)
  | Some n =>
      match choice (class_count y c) n (replacement self) st with
      | inl e => inl e
      | inr (draws, st') =>
          match np.take (class_rows y c) draws with
          | inl e => inl e
          | inr block => inr (idx ++ block, st')
          end
      end
  end.
Proof.
  unfold sample_class, class_count, class_rows.
  destruct (sampling_target_ self !! c) as [n|]; [|done].
  unfold bind at 1. unfold bind at 1.
  destruct (choice _ n (replacement self) st) as [e|[draws st']]; [done|].
  unfold ret at 1. unfold bind, lift. simpl.
  by destruct (np.take _ draws).
Qed.

Lemma choice_without_replacement (k n : nat) st :
  0 < k → n ≤ k → ∃ draws st', choice k n false st = inr (draws, st').
Proof.
  intros Hk Hn. unfold choice. case_decide; [lia|]. unfold bind at 1.
  case_decide; [lia|]. unfold bind.
  destruct (permutation_perm k st) as (p & s & -> & Hperm). unfold ret, lift.
  rewrite take_seq; [by eexists _, _|].
  apply Forall_take. rewrite Hperm. apply Forall_seq. lia.
Qed.

Lemma sample_class_succeeds `{!RandomSourceOk R} self y idx c st :
  c ∈ y → class_feasible self y c = true →
  ∃ idx' st', sample_class self y idx c st = inr (idx', st').
Proof.
  intros Hc Hf. rewrite sample_class_run. unfold class_feasible in Hf.
  destruct (sampling_target_ self !! c) as [n|]; [|by eexists _, _].
  destruct (choice_succeeds (class_count y c) n (replacement self) st)
    as (draws & st' & Hch).
  { by apply class_count_pos. }
  { intros Hr. rewrite Hr in Hf. simpl in Hf.
    by apply bool_decide_eq_true in Hf. }
  rewrite Hch. apply choice_inv in Hch as (_ & Hlt & _).
  rewrite <- class_rows_length in Hlt.
  destruct (take_in_range _ _ Hlt) as [block ->]. by eexists _, _.
Qed.

Lemma sample_classes_succeeds `{!RandomSourceOk R} self y cs idx st :
  Forall (λ c, c ∈ y) cs → forallb (class_feasible self y) cs = true →
  ∃ idx' st', sample_classes self y cs idx st = inr (idx', st').
Proof.
  intros Hcs. revert idx st.
  induction Hcs as [|c cs Hc _ IH]; intros idx st Hf; simpl.
  - by eexists _, _.
  - simpl in Hf. apply andb_true_iff in Hf as [Hfc Hf].
    destruct (sample_class_succeeds self y idx c st Hc Hfc)
      as (idx1 & st1 & Hrun).
    unfold bind. rewrite Hrun. by apply IH.
Qed.

(** A successful run of the loop leaves the trace of its blocks. *)
Lemma sample_classes_blocks self y cs idx st idx' st' :
  sample_classes self y cs idx st = inr (idx', st') →
  ∃ blocks, class_blocks self y cs st blocks ∧ idx' = idx ++ concat blocks.
Proof.
  revert idx st. induction cs as [|c cs IH]; intros idx st H; simpl in H.
  - apply ret_inr in H as [-> _]. exists []. split; [constructor|].
    simpl. by rewrite app_nil_r.
  - apply bind_inr in H as (idx1 & st1 & Hc & H).
    apply IH in H as (blocks & Hblocks & ->).
    rewrite sample_class_run in Hc.
    destruct (sampling_target_ self !! c) as [n|] eqn:Hm.
    + destruct (choice _ n _ st) as [e|[draws s]] eqn:Hch; [done|].
      destruct (np.take _ draws) as [e|block] eqn:Htake; [done|].
      injection Hc as <- <-. exists (block :: blocks). split.
      * eapply blocks_drawn; [done..| |done]. by apply take_spec.
      * simpl. by rewrite <- app_assoc.
    + injection Hc as <- <-. exists (class_rows y c :: blocks). split.
      * by constructor.
      * simpl. by rewrite <- app_assoc.
Qed.

(** Without replacement, the loop stops with [SamplingError] at the first
    class that is asked more rows than it has. *)
Lemma sample_classes_too_many self y cs idx st c n :
  replacement self = false → Forall (λ c, c ∈ y) cs → c ∈ cs →
  sampling_target_ self !! c = Some n → class_count y c < n →
  sample_classes self y cs idx st = inl SamplingError.
Proof.
  intros Hr Hcs. revert idx st.
  induction Hcs as [|c0 cs Hc0 _ IH]; intros idx st Hc Hm Hn.
  { by apply elem_of_nil in Hc. }
  simpl. unfold bind. rewrite sample_class_run, Hr.
  destruct (sampling_target_ self !! c0) as [n0|] eqn:Hm0.
  - destruct (decide (class_count y c0 < n0)) as [Hlt|Hge].
    + rewrite choice_too_many; [done|by apply class_count_pos|done].
    + destruct (choice_without_replacement (class_count y c0) n0 st)
        as (draws & st' & Hch); [by apply class_count_pos|lia|].
      rewrite Hch. apply choice_inv in Hch as (_ & Hlt & _).
      rewrite <- class_rows_length in Hlt.
      destruct (take_in_range _ _ Hlt) as [block ->].
      apply IH; [|done..]. apply elem_of_cons in Hc as [->|Hc]; [|done].
      rewrite Hm in Hm0. injection Hm0 as ->. lia.
  - apply IH; [|done..]. apply elem_of_cons in Hc as [->|Hc]; [|done].
    by rewrite Hm in Hm0.
Qed.

(** The trace gives each class a block that is as [block_ok] says. *)
Lemma class_blocks_ok self y cs st blocks :
  class_blocks self y cs st blocks → Forall2 (block_ok self y) cs blocks.
Proof.
  induction 1 as [st|c cs st blocks Hm _ IH
                 |c cs st n draws st' block blocks Hm Hch Hdrawn _ IH].
  - constructor.
  - constructor; [|done]. split.
    + apply Forall_forall. intros i. by rewrite class_rows_elem.
    + by rewrite Hm.
  - constructor; [|done]. split.
    + apply Forall_forall. intros i Hi. apply class_rows_elem.
      by eapply drawn_from_elem.
    + rewrite Hm. apply choice_inv in Hch as (Hlen & _ & Hnodup). split.
      * by rewrite <- (Forall2_length _ _ _ Hdrawn).
      * intros Hr. destruct (Hnodup Hr) as [Hnd Hall]. split.
        -- eapply drawn_from_NoDup; [apply class_rows_NoDup|done..].
        -- intros ->. eapply drawn_from_all; [|done].
           rewrite class_rows_length. by apply Hall.
Qed.

End loop_facts.

(** ** What the blocks say of the Index Selection *)

Section block_facts.
Context {R : RandomSource}.
Implicit Types (self : RandomUnderSampler) (y : list Z) (c : Z).

Lemma filter_all {A} (P : A → Prop) `{!∀ x, Decision (P x)} (l : list A) :
  Forall P l → filter P l = l.
Proof.
  induction 1 as [|x l Hx _ IH]; [done|].
  by rewrite filter_cons_True, IH.
Qed.

Lemma filter_none {A} (P : A → Prop) `{!∀ x, Decision (P x)} (l : list A) :
  Forall (λ x, ¬ P x) l → filter P l = [].
Proof.
  induction 1 as [|x l Hx _ IH]; [done|].
  by rewrite filter_cons_False.
Qed.

Lemma block_ok_label self y c block i :
  block_ok self y c block → i ∈ block → y !! i = Some c.
Proof. intros [Hl _] Hi. rewrite Forall_forall in Hl. by apply Hl. Qed.

Lemma blocks_label self y cs blocks i :
  Forall2 (block_ok self y) cs blocks → i ∈ concat blocks →
  ∃ c, c ∈ cs ∧ y !! i = Some c.
Proof.
  induction 1 as [|c block cs blocks Hb _ IH]; simpl.
  - by intros ?%elem_of_nil.
  - intros [Hi|Hi]%elem_of_app.
    + exists c. split; [left|]. by eapply block_ok_label.
    + destruct (IH Hi) as (c' & ? & ?). exists c'. split; [by right|done].
Qed.

Lemma blocks_in_range self y cs blocks :
  Forall2 (block_ok self y) cs blocks →
  Forall (λ i, i < length y) (concat blocks).
Proof.
  intros H. apply Forall_forall. intros i Hi.
  destruct (blocks_label _ _ _ _ _ H Hi) as (c & _ & Hc).
  by eapply lookup_lt_Some.
Qed.

Lemma blocks_other_class self y cs blocks c :
  Forall2 (block_ok self y) cs blocks → c ∉ cs →
  rows_of_class y c (concat blocks) = [].
Proof.
  intros H Hc. apply filter_none, Forall_forall. intros i Hi Hyi.
  destruct (blocks_label _ _ _ _ _ H Hi) as (c' & Hc' & Hyi').
  rewrite Hyi in Hyi'. injection Hyi' as <-. done.
Qed.

(** The rows of class [c] in the Index Selection are the block of [c]. *)
Lemma blocks_rows_of_class self y cs blocks k c block :
  NoDup cs → Forall2 (block_ok self y) cs blocks →
  cs !! k = Some c → blocks !! k = Some block →
  rows_of_class y c (concat blocks) = block.
Proof.
  intros Hnd H. revert k.
  induction H as [|c0 b0 cs blocks Hb Hbs IH]; intros k Hc Hblock; [done|].
  apply NoDup_cons in Hnd as [Hc0 Hnd]. simpl.
  unfold rows_of_class. rewrite filter_app. destruct k as [|k]; simpl in *.
  - injection Hc as ->. injection Hblock as ->.
    rewrite filter_all by apply Hb.
    fold (rows_of_class y c (concat blocks)).
    by rewrite (blocks_other_class _ _ _ _ _ Hbs Hc0), app_nil_r.
  - rewrite filter_none; [by apply IH with k|].
    apply Forall_forall. intros i Hi Hyi.
    rewrite (block_ok_label _ _ _ _ _ Hb Hi) in Hyi. injection Hyi as ->.
    apply Hc0. by eapply list_elem_of_lookup_2.
Qed.

Lemma blocks_NoDup self y cs blocks :
  replacement self = false → NoDup cs →
  Forall2 (block_ok self y) cs blocks → NoDup (concat blocks).
Proof.
  intros Hr Hnd H.
  induction H as [|c b cs blocks Hb Hbs IH]; simpl; [constructor|].
  apply NoDup_cons in Hnd as [Hc Hnd]. apply NoDup_app. split; [|split].
  - destruct Hb as [_ Hb]. destruct (sampling_target_ self !! c).
    + by apply Hb.
    + rewrite Hb. apply class_rows_NoDup.
  - intros i Hi Hi'.
    destruct (blocks_label _ _ _ _ _ Hbs Hi') as (c' & Hc' & Hyi).
    rewrite (block_ok_label _ _ _ _ _ Hb Hi) in Hyi. by injection Hyi as ->.
  - by apply IH.
Qed.

Lemma block_ok_length self y c block :
  block_ok self y c block →
  length block = resolved_count (sampling_target_ self) y c.
Proof.
  intros [_ Hb]. unfold resolved_count.
  destruct (sampling_target_ self !! c).
  - by apply Hb.
  - by rewrite Hb, class_rows_length.
Qed.

Lemma blocks_length self y cs blocks :
  Forall2 (block_ok self y) cs blocks →
  length (concat blocks) =
  sum_list (resolved_count (sampling_target_ self) y <$> cs).
Proof.
  induction 1 as [|c b cs blocks Hb _ IH]; csimpl; [done|].
  by rewrite length_app, IH, (block_ok_length _ _ _ _ Hb).
Qed.

(** The sum of the resolved counts: the counts asked, and the sizes of the
    classes that are not keys. *)
Lemma resolved_split (m : gmap Z nat) y (cs : list Z) :
  sum_list (resolved_count m y <$> cs) =
  sum_list ((λ c, default 0 (m !! c)) <$> cs) +
  sum_list ((λ c, match m !! c with
                  | Some _ => 0
                  | None => class_count y c
                  end) <$> cs).
Proof.
  induction cs as [|c cs IH]; csimpl; [done|]. rewrite IH.
  unfold resolved_count. destruct (m !! c); simpl; lia.
Qed.

Lemma sum_insert_fresh (m : gmap Z nat) (k : Z) (v : nat) (cs : list Z) :
  k ∉ cs →
  sum_list ((λ c, default 0 (<[k:=v]> m !! c)) <$> cs) =
  sum_list ((λ c, default 0 (m !! c)) <$> cs).
Proof.
  induction cs as [|d cs IH]; csimpl; [done|].
  intros [Hne Hk]%not_elem_of_cons.
  rewrite lookup_insert_ne by done. by rewrite IH.
Qed.

Lemma sum_insert_key (m : gmap Z nat) (k : Z) (v : nat) (cs : list Z) :
  m !! k = None → NoDup cs → k ∈ cs →
  sum_list ((λ c, default 0 (<[k:=v]> m !! c)) <$> cs) =
  v + sum_list ((λ c, default 0 (m !! c)) <$> cs).
Proof.
  intros Hk Hnd. induction Hnd as [|c cs Hc Hnd IH]; csimpl.
  - by intros ?%elem_of_nil.
  - intros [Heq|Hin]%elem_of_cons.
    + subst c. rewrite lookup_insert_eq, Hk, sum_insert_fresh by done. done.
    + rewrite IH by done. rewrite lookup_insert_ne; [lia|].
      intros ->. done.
Qed.

Lemma sum_keys (m : gmap Z nat) (cs : list Z) :
  NoDup cs → map_Forall (λ c _, c ∈ cs) m →
  sum_list ((λ c, default 0 (m !! c)) <$> cs) = targeted_total m.
Proof.
  intros Hnd. unfold targeted_total.
  induction m as [|k v m Hk IH] using map_ind; intros Hm.
  - rewrite map_fold_empty. induction cs as [|c cs IHcs]; csimpl; [done|].
    apply NoDup_cons in Hnd as [_ Hnd]. rewrite lookup_empty. simpl.
    by apply IHcs.
  - rewrite map_fold_insert_L; [|intros; lia|done].
    apply map_Forall_insert in Hm as [Hkin Hm]; [|done].
    rewrite sum_insert_key by done. by rewrite IH.
Qed.

Lemma resolved_total (m : gmap Z nat) y :
  keys_present m y →
  sum_list (resolved_count m y <$> np.unique y) =
  targeted_total m + untargeted_total m y.
Proof.
  intros Hm. rewrite resolved_split. unfold untargeted_total. f_equal.
  apply sum_keys; [apply unique_NoDup|].
  eapply map_Forall_impl; [exact Hm|]. intros c n Hc. by apply unique_elem.
Qed.

End block_facts.

(** ** The call *)

Section sample_facts.
Context {R : RandomSource}.
Implicit Types (self : RandomUnderSampler) (y : list Z) (c : Z).

Lemma safe_indexing_rows {A} (X : matrix A) (idx : list nat) :
  np.take (matrix_rows X) idx =
  match safe_indexing X idx with
  | inl e => inl e
  | inr X' => inr (matrix_rows X')
  end.
Proof.
  destruct X as [rows|ncols rows]; simpl; rewrite take_fmap;
    unfold safe_indexing, matrix_safe_indexing;
    by destruct (np.take rows idx).
Qed.

Lemma safe_indexing_dense {A} (zero : A) (X : matrix A) (idx : list nat) :
  np.take (to_dense zero X) idx =
  match safe_indexing X idx with
  | inl e => inl e
  | inr X' => inr (to_dense zero X')
  end.
Proof.
  destruct X as [rows|ncols rows]; simpl;
    unfold safe_indexing, matrix_safe_indexing.
  - by destruct (np.take rows idx).
  - rewrite take_fmap. by destruct (np.take rows idx).
Qed.

Lemma matrix_rows_length {A} (X : matrix A) :
  length (matrix_rows X) = n_rows X.
Proof. destruct X; simpl; by rewrite length_fmap. Qed.

Lemma to_dense_length {A} (zero : A) (X : matrix A) :
  length (to_dense zero X) = n_rows X.
Proof. destruct X; simpl; [done|by rewrite length_fmap]. Qed.

(** The slicing step: with an Index Selection within the rows, the call
    returns the rows and the labels read at it. *)
Lemma sample_slices {A} self (X : matrix A) y g idx :
  n_rows X = length y → index_selection self y g = inr idx →
  Forall (λ i, i < length y) idx →
  ∃ r, sample_returns self X y g idx r.
Proof.
  intros HX Hidx Hlt. unfold sample_returns, _sample, sliced_at.
  rewrite Hidx.
  destruct (take_in_range y idx Hlt) as [y' Hy'].
  assert (∃ xs, np.take (matrix_rows X) idx = inr xs) as [xs Hxs].
  { apply take_in_range. by rewrite matrix_rows_length, HX. }
  rewrite safe_indexing_rows in Hxs.
  destruct (safe_indexing X idx) as [e|X'] eqn:HX'; [done|].
  injection Hxs as <-.
  pose proof (safe_indexing_rows X idx) as Hrows. rewrite HX' in Hrows.
  apply take_spec in Hrows.
  change (safe_indexing y idx) with (np.take y idx). rewrite Hy'.
  apply take_spec in Hy'.
  destruct (return_indices self); eexists; repeat split; done.
Qed.

Lemma index_selection_blocks self y g idx :
  index_selection self y g = inr idx →
  ∃ blocks,
    idx = concat blocks ∧
    class_blocks self y (np.unique y)
      (check_random_state (random_state self) g) blocks.
Proof.
  unfold index_selection.
  destruct (sample_classes _ _ _ _ _) as [e|[idx' st']] eqn:Hrun; [done|].
  intros [= <-]. apply sample_classes_blocks in Hrun as (blocks & ? & ->).
  by exists blocks.
Qed.

Lemma index_selection_succeeds `{!RandomSourceOk R} self y g :
  feasible self y = true → ∃ idx, index_selection self y g = inr idx.
Proof.
  intros Hf. unfold index_selection.
  destruct (sample_classes_succeeds self y (np.unique y) []
              (check_random_state (random_state self) g))
    as (idx & st' & ->); [|done|by eexists].
  apply Forall_forall. intros c. by rewrite unique_elem.
Qed.

(** The whole call, under the conditions that make it succeed. *)
Lemma sample_spec `{!RandomSourceOk R} {A} self (X : matrix A) y g :
  n_rows X = length y → feasible self y = true →
  ∃ blocks r,
    sample_returns self X y g (concat blocks) r ∧
    class_blocks self y (np.unique y)
      (check_random_state (random_state self) g) blocks ∧
    Forall2 (block_ok self y) (np.unique y) blocks.
Proof.
  intros HX Hf.
  destruct (index_selection_succeeds self y g Hf) as [idx Hidx].
  destruct (index_selection_blocks _ _ _ _ Hidx) as (blocks & -> & Hblocks).
  pose proof (class_blocks_ok _ _ _ _ _ Hblocks) as Hok.
  destruct (sample_slices self X y g _ HX Hidx) as [r Hr].
  { by eapply blocks_in_range. }
  by exists blocks, r.
Qed.

(** The rows of a class of [y] in the Index Selection form its block. *)
Lemma rows_of_class_ok self y cs blocks c :
  NoDup cs → Forall2 (block_ok self y) cs blocks → c ∈ cs →
  block_ok self y c (rows_of_class y c (concat blocks)).
Proof.
  intros Hnd H [k Hk]%list_elem_of_lookup.
  destruct (Forall2_lookup_l _ _ _ _ _ H Hk) as (block & Hblock & Hok).
  by rewrite (blocks_rows_of_class _ _ _ _ _ _ _ Hnd H Hk Hblock).
Qed.

(** Counting a class in the output labels is counting its rows in the
    Index Selection. *)
Lemma class_count_sliced y (idx : list nat) (y' : list Z) c :
  Forall2 (λ i v, y !! i = Some v) idx y' →
  class_count y' c = length (rows_of_class y c idx).
Proof.
  unfold class_count, rows_of_class, np.equal.
  induction 1 as [|i v idx y' Hi _ IH]; csimpl; [done|].
  rewrite filter_cons. destruct (Z.eqb_spec v c) as [->|Hne].
  - rewrite decide_True by done. simpl. by rewrite <- IH.
  - rewrite decide_False; [done|]. rewrite Hi. by intros [= ?].
Qed.

End sample_facts.

(** ** The order of the output, and keys that name no class *)

Section order_facts.
Context {R : RandomSource}.
Implicit Types (self : RandomUnderSampler) (y : list Z) (c : Z).

Lemma sliced_label y (idx : list nat) (y' : list Z) (v : Z) :
  Forall2 (λ i v, y !! i = Some v) idx y' → v ∈ y' →
  ∃ i, i ∈ idx ∧ y !! i = Some v.
Proof.
  intros H [k Hk]%list_elem_of_lookup.
  destruct (Forall2_lookup_r _ _ _ _ _ H Hk) as (i & Hi & Hyi).
  exists i. split; [by eapply list_elem_of_lookup_2|done].
Qed.

Lemma constant_sorted (c : Z) (l : list Z) :
  Forall (λ v, v = c) l → StronglySorted Z.le l.
Proof.
  induction 1 as [|v l -> Hl IH]; constructor; [done|].
  eapply Forall_impl; [exact Hl|]. intros v ->. done.
Qed.

(** Read at the concatenation of the blocks of ascending classes, the
    labels never decrease. *)
Lemma blocks_labels_sorted self y cs blocks (y' : list Z) :
  StronglySorted Z.lt cs → Forall2 (block_ok self y) cs blocks →
  Forall2 (λ i v, y !! i = Some v) (concat blocks) y' →
  StronglySorted Z.le y'.
Proof.
  intros Hcs H. revert y'.
  induction H as [|c b cs blocks Hb Hbs IH]; intros y' Hy'; simpl in Hy'.
  - apply Forall2_nil_inv_l in Hy' as ->. constructor.
  - apply StronglySorted_cons in Hcs as [Hc Hcs].
    apply Forall2_app_inv_l in Hy' as (y1 & y2 & Hy1 & Hy2 & ->).
    assert (∀ v, v ∈ y1 → v = c) as Hy1c.
    { intros v Hv. destruct (sliced_label _ _ _ _ Hy1 Hv) as (i & Hi & Hyi).
      rewrite (block_ok_label _ _ _ _ _ Hb Hi) in Hyi. by injection Hyi. }
    apply StronglySorted_app_2.
    + intros v1 v2 Hv1 Hv2. rewrite (Hy1c _ Hv1).
      destruct (sliced_label _ _ _ _ Hy2 Hv2) as (i & Hi & Hyi).
      destruct (blocks_label _ _ _ _ _ Hbs Hi) as (c' & Hc' & Hyi').
      rewrite Hyi in Hyi'. injection Hyi' as ->.
      rewrite Forall_forall in Hc. specialize (Hc _ Hc'). lia.
    + apply (constant_sorted c). by apply Forall_forall.
    + by apply IH.
Qed.

(** A key that is none of the classes of the loop is never looked up. *)
Lemma sample_classes_delete self y cs idx st c :
  c ∉ cs →
  sample_classes (with_target self (delete c (sampling_target_ self)))
    y cs idx st =
  sample_classes self y cs idx st.
Proof.
  revert idx st. induction cs as [|c0 cs IH]; intros idx st Hc; [done|].
  apply not_elem_of_cons in Hc as [Hne Hc]. simpl. unfold bind.
  rewrite !sample_class_run. simpl. rewrite lookup_delete_ne by done.
  destruct (sampling_target_ self !! c0) as [n|].
  - destruct (choice _ n _ st) as [e|[draws st']]; [done|].
    destruct (np.take _ draws); [done|]. by apply IH.
  - by apply IH.
Qed.

End order_facts.

(** ** The example generator *)

Global Instance lcg_ok : RandomSourceOk lcg.
Proof.
  intros max st. simpl.
  pose proof (N.mod_lt (lcg_next st / 65536) (N.of_nat (S max))). lia.
Qed.

Example ex_draw_order :
  index_selection (ex_sampler 1 4 false) ex_y 0%N = inr [1; 4; 5; 2; 3; 0].
Proof. vm_compute. reflexivity. Qed.

Example ex_with_replacement :
  index_selection (ex_sampler 1 5 true) ex_y 0%N = inr [1; 4; 0; 2; 5; 3; 2].
Proof. vm_compute. reflexivity. Qed.

(** * The properties of the sample operation *)

Section properties.
Context {R : RandomSource}.
Implicit Types (self : RandomUnderSampler) (y : list Z) (c : Z).

(** C1. Given features of as many rows as there are labels, a target mapping
    whose keys are classes of the labels, and counts that can be drawn, the
    call returns features and labels of one same length: the sum of the
    target counts over the keys of the mapping, plus the sum of the original
    counts over the classes that are not keys. *)
Theorem sample_output_length `{!RandomSourceOk R} {A} self (X : matrix A)
    y g :
  n_rows X = length y →
  keys_present (sampling_target_ self) y →
  feasible self y = true →
  ∃ idx r,
    sample_returns self X y g idx r ∧
    n_rows (features_out r) = length (labels_out r) ∧
    length (labels_out r) =
      targeted_total (sampling_target_ self) +
      untargeted_total (sampling_target_ self) y.
Proof.
  intros HX Hkeys Hf.
  destruct (sample_spec self X y g HX Hf) as (blocks & r & Hr & _ & Hok).
  exists (concat blocks), r. split; [done|].
  destruct Hr as (_ & _ & _ & HXr & Hyr).
  apply Forall2_length in HXr, Hyr. rewrite matrix_rows_length in HXr.
  split; [congruence|].
  by rewrite <- Hyr, (blocks_length _ _ _ _ Hok), resolved_total.
Qed.

(** C2. Drawing without replacement, with counts that can be drawn, the
    Index Selection holds no index twice, and each of its indices is below
    the number of input rows. *)
Theorem sample_indices_distinct `{!RandomSourceOk R} {A} self
    (X : matrix A) y g :
  replacement self = false →
  n_rows X = length y →
  feasible self y = true →
  ∃ idx r,
    sample_returns self X y g idx r ∧
    NoDup idx ∧
    Forall (λ i, i < n_rows X) idx.
Proof.
  intros Hr HX Hf.
  destruct (sample_spec self X y g HX Hf) as (blocks & r & Hret & _ & Hok).
  exists (concat blocks), r. split; [done|]. split.
  - eapply blocks_NoDup; [done|apply unique_NoDup|done].
  - rewrite HX. by eapply blocks_in_range.
Qed.

(** C3. With an integer seed, the call does not depend on the state of the
    process-wide generator: two runs on the same features, labels, target
    mapping and replacement flag return the same result.  Run on two
    representations of the same logical feature matrix, the call returns the
    same Index Selection and the same labels, and features with the same
    logical content. *)
Theorem sample_deterministic {A} (zero : A) self (X1 X2 : matrix A) y g1 g2
    (seed : Z) :
  random_state self = RsInt seed →
  to_dense zero X1 = to_dense zero X2 →
  _sample self X1 y g1 = _sample self X1 y g2 ∧
  index_selection self y g1 = index_selection self y g2 ∧
  match _sample self X1 y g1, _sample self X2 y g2 with
  | inr r1, inr r2 =>
      to_dense zero (features_out r1) = to_dense zero (features_out r2) ∧
      labels_out r1 = labels_out r2 ∧
      indices_out r1 = indices_out r2
  | inl e1, inl e2 => e1 = e2
  | _, _ => False
  end.
Proof.
  intros Hseed HX.
  assert (index_selection self y g1 = index_selection self y g2) as Hidx.
  { unfold index_selection. by rewrite Hseed. }
  split; [|split; [done|]].
  { unfold _sample. by rewrite Hidx. }
  unfold _sample. rewrite Hidx.
  destruct (index_selection self y g2) as [e|idx]; [done|].
  pose proof (safe_indexing_dense zero X1 idx) as H1.
  pose proof (safe_indexing_dense zero X2 idx) as H2.
  rewrite HX, H2 in H1.
  destruct (safe_indexing X1 idx) as [e1|X1'],
           (safe_indexing X2 idx) as [e2|X2']; try done.
  { by injection H1. }
  injection H1 as H1.
  destruct (safe_indexing y idx) as [e|y']; [done|].
  by destruct (return_indices self).
Qed.

(** C4. A class of the labels that is not a key of the target mapping is
    kept whole: its rows in the Index Selection are all the rows of the
    class, each once, in ascending original position. *)
Theorem untargeted_class_kept `{!RandomSourceOk R} {A} self (X : matrix A)
    y g c :
  n_rows X = length y →
  feasible self y = true →
  c ∈ y →
  sampling_target_ self !! c = None →
  ∃ idx r,
    sample_returns self X y g idx r ∧
    rows_of_class y c idx = class_rows y c ∧
    StronglySorted lt (class_rows y c) ∧
    ∀ i, i ∈ class_rows y c ↔ y !! i = Some c.
Proof.
  intros HX Hf Hc Hm.
  destruct (sample_spec self X y g HX Hf) as (blocks & r & Hret & _ & Hok).
  exists (concat blocks), r. split; [done|].
  split; [|split; [apply class_rows_sorted|apply class_rows_elem]].
  destruct (rows_of_class_ok self y (np.unique y) blocks c) as [_ Hb];
    [apply unique_NoDup|done|by apply unique_elem|].
  by rewrite Hm in Hb.
Qed.

(** C5. Drawing without replacement, when the target mapping asks of a class
    of the labels more rows than the class has, the call raises
    [SamplingError] and returns nothing. *)
Theorem sample_too_many_fails {A} self (X : matrix A) y g c (n : nat) :
  replacement self = false →
  c ∈ y →
  sampling_target_ self !! c = Some n →
  class_count y c < n →
  _sample self X y g = inl SamplingError ∧
  index_selection self y g = inl SamplingError.
Proof.
  intros Hr Hc Hm Hn.
  assert (index_selection self y g = inl SamplingError) as Hidx.
  { unfold index_selection.
    rewrite (sample_classes_too_many self y (np.unique y) [] _ c n);
      [done|done| |by apply unique_elem|done|done].
    apply Forall_forall. intros c'. by rewrite unique_elem. }
  split; [|done]. unfold _sample. by rewrite Hidx.
Qed.

(** C6, as the code has it. A key of the target mapping that names no class
    of the labels is never looked up: the call returns what it returns for
    the mapping without that key, and does not fail on its account. *)
Theorem absent_class_ignored {A} self (X : matrix A) y g c :
  c ∉ y →
  _sample (with_target self (delete c (sampling_target_ self))) X y g =
  _sample self X y g.
Proof.
  intros Hc. unfold _sample, index_selection. simpl.
  rewrite sample_classes_delete; [done|]. by rewrite unique_elem.
Qed.

(** C7. The Index Selection is the concatenation of one block per class of
    the labels, the classes taken in ascending order of their values.  The
    block of a class that is not a key is the rows of the class in ascending
    position; the block of a class that is a key is the rows of the class
    read at the positions [choice] returns, in the order it returns them.
    The output labels therefore never decrease. *)
Theorem sample_block_order `{!RandomSourceOk R} {A} self (X : matrix A)
    y g :
  n_rows X = length y →
  feasible self y = true →
  ∃ blocks r,
    sample_returns self X y g (concat blocks) r ∧
    class_blocks self y (np.unique y)
      (check_random_state (random_state self) g) blocks ∧
    StronglySorted Z.lt (np.unique y) ∧
    (∀ c, c ∈ np.unique y ↔ c ∈ y) ∧
    Forall2 (λ c block,
      Forall (λ i, y !! i = Some c) block ∧
      (sampling_target_ self !! c = None →
       block = class_rows y c ∧ StronglySorted lt block))
      (np.unique y) blocks ∧
    StronglySorted Z.le (labels_out r).
Proof.
  intros HX Hf.
  destruct (sample_spec self X y g HX Hf) as (blocks & r & Hret & Hbl & Hok).
  exists blocks, r. split; [done|]. split; [done|].
  split; [apply unique_sorted|]. split; [apply unique_elem|]. split.
  - eapply Forall2_impl; [exact Hok|]. intros c block [Hl Hb].
    split; [done|]. intros Hm. rewrite Hm in Hb. subst block.
    split; [done|apply class_rows_sorted].
  - destruct Hret as (_ & _ & _ & _ & Hy').
    eapply blocks_labels_sorted; [apply unique_sorted|done..].
Qed.

(** C8. The call returns the features and the labels read at the Index
    Selection, and the Index Selection with them exactly when
    [return_indices] is set.  The three have one same length, and row for
    row the output is the input at the index selected. *)
Theorem sample_returns_indices `{!RandomSourceOk R} {A} self (X : matrix A)
    y g :
  n_rows X = length y →
  feasible self y = true →
  ∃ X' y' idx,
    index_selection self y g = inr idx ∧
    _sample self X y g =
      inr (if return_indices self then ResampledIdx X' y' idx
           else Resampled X' y') ∧
    n_rows X' = length idx ∧
    length y' = length idx ∧
    ∀ i, i < length idx →
      ∃ j, idx !! i = Some j ∧ j < length y ∧
           matrix_rows X' !! i = matrix_rows X !! j ∧
           y' !! i = y !! j.
Proof.
  intros HX Hf.
  destruct (sample_spec self X y g HX Hf) as (blocks & r & Hret & _ & Hok).
  destruct Hret as (Hidx & Hrun & Hout & HXr & Hyr).
  exists (features_out r), (labels_out r), (concat blocks).
  split; [done|]. split; [|split; [|split]].
  - rewrite Hrun. f_equal.
    destruct r, (return_indices self); simpl in *; congruence.
  - rewrite <- matrix_rows_length. symmetry. by eapply Forall2_length.
  - symmetry. by eapply Forall2_length.
  - intros i Hi. destruct (lookup_lt_is_Some_2 _ _ Hi) as [j Hj].
    exists j. split; [done|].
    destruct (Forall2_lookup_l _ _ _ _ _ HXr Hj) as (x & -> & ->).
    destruct (Forall2_lookup_l _ _ _ _ _ Hyr Hj) as (v & -> & Hv).
    rewrite Hv. split; [by eapply lookup_lt_Some|done].
Qed.

(** C9. Each block of the Index Selection holds only rows labelled with the
    class of the block; so every class of the labels has, in the output
    labels, as many rows as the mapping asks of it when it is a key, and as
    many as it had when it is not. *)
Theorem block_label_purity `{!RandomSourceOk R} {A} self (X : matrix A)
    y g :
  n_rows X = length y →
  feasible self y = true →
  ∃ blocks r,
    sample_returns self X y g (concat blocks) r ∧
    class_blocks self y (np.unique y)
      (check_random_state (random_state self) g) blocks ∧
    Forall2 (λ c block, Forall (λ i, y !! i = Some c) block)
      (np.unique y) blocks ∧
    ∀ c, c ∈ y →
      class_count (labels_out r) c =
      resolved_count (sampling_target_ self) y c.
Proof.
  intros HX Hf.
  destruct (sample_spec self X y g HX Hf) as (blocks & r & Hret & Hbl & Hok).
  exists blocks, r. split; [done|]. split; [done|]. split.
  - eapply Forall2_impl; [exact Hok|]. by intros c block [Hl _].
  - intros c Hc. destruct Hret as (_ & _ & _ & _ & Hy').
    rewrite (class_count_sliced _ _ _ _ Hy').
    apply block_ok_length.
    apply (rows_of_class_ok self y (np.unique y));
      [apply unique_NoDup|done|by apply unique_elem].
Qed.

(** C10. Drawing without replacement, when the mapping asks of a class
    exactly as many rows as the class has, the rows of the class in the
    Index Selection are a permutation of all the rows of the class: none
    left out, none twice. *)
Theorem full_count_permutation `{!RandomSourceOk R} {A} self (X : matrix A)
    y g c :
  replacement self = false →
  n_rows X = length y →
  feasible self y = true →
  c ∈ y →
  sampling_target_ self !! c = Some (class_count y c) →
  ∃ idx r,
    sample_returns self X y g idx r ∧
    rows_of_class y c idx ≡ₚ class_rows y c ∧
    NoDup (rows_of_class y c idx).
Proof.
  intros Hr HX Hf Hc Hm.
  destruct (sample_spec self X y g HX Hf) as (blocks & r & Hret & _ & Hok).
  exists (concat blocks), r. split; [done|].
  destruct (rows_of_class_ok self y (np.unique y) blocks c) as [_ Hb];
    [apply unique_NoDup|done|by apply unique_elem|].
  rewrite Hm in Hb. destruct Hb as [_ Hb]. destruct (Hb Hr) as [Hnd Hperm].
  split; [by apply Hperm|done].
Qed.

End properties.

(** * The properties, on the small data set *)

(** The target mapping of this estimator names class 7, of which the labels
    have no row, and the call returns the whole data set, class by class:
    C6 as stated fails here. *)
Lemma absent_class_not_rejected :
  sampling_target_ (ex_sampler 7 3 false) !! 7%Z = Some 3 ∧
  class_count ex_y 7 = 0 ∧
  _sample (ex_sampler 7 3 false) ex_X ex_y 0%N =
    inr (ResampledIdx (Dense [[11]; [14]; [10]; [12]; [13]; [15]]%Z)
                      [0; 0; 1; 1; 1; 1]%Z [1; 4; 0; 2; 3; 5]) ∧
  ¬ ∃ e, _sample (ex_sampler 7 3 false) ex_X ex_y 0%N = inl e.
Proof.
  assert (_sample (ex_sampler 7 3 false) ex_X ex_y 0%N =
    inr (ResampledIdx (Dense [[11]; [14]; [10]; [12]; [13]; [15]]%Z)
                      [0; 0; 1; 1; 1; 1]%Z [1; 4; 0; 2; 3; 5])) as Hrun.
  { vm_compute. reflexivity. }
  split; [vm_compute; reflexivity|]. split; [vm_compute; reflexivity|].
  split; [exact Hrun|]. intros [e He]. rewrite Hrun in He. discriminate He.
Qed.

Lemma sample_output_length_witness :
  ∃ idx r,
    sample_returns (ex_sampler 1 2 false) ex_X ex_y 0%N idx r ∧
    n_rows (features_out r) = length (labels_out r) ∧
    length (labels_out r) =
      targeted_total (sampling_target_ (ex_sampler 1 2 false)) +
      untargeted_total (sampling_target_ (ex_sampler 1 2 false)) ex_y.
Proof.
  apply (@sample_output_length lcg lcg_ok Z (ex_sampler 1 2 false) ex_X ex_y
           0%N).
  - reflexivity.
  - apply (bool_decide_unpack _). vm_compute. exact I.
  - vm_compute. reflexivity.
Defined.

Lemma sample_indices_distinct_witness :
  ∃ idx r,
    sample_returns (ex_sampler 1 2 false) ex_X ex_y 0%N idx r ∧
    NoDup idx ∧
    Forall (λ i, i < n_rows ex_X) idx.
Proof.
  apply (@sample_indices_distinct lcg lcg_ok Z (ex_sampler 1 2 false) ex_X
           ex_y 0%N).
  - reflexivity.
  - reflexivity.
  - vm_compute. reflexivity.
Defined.

Lemma sample_deterministic_witness :
  _sample (ex_sampler 1 2 false) ex_X ex_y 0%N =
  _sample (ex_sampler 1 2 false) ex_X ex_y 5%N ∧
  index_selection (ex_sampler 1 2 false) ex_y 0%N =
  index_selection (ex_sampler 1 2 false) ex_y 5%N ∧
  match _sample (ex_sampler 1 2 false) ex_X ex_y 0%N,
        _sample (ex_sampler 1 2 false) ex_X_sparse ex_y 5%N with
  | inr r1, inr r2 =>
      to_dense 0%Z (features_out r1) = to_dense 0%Z (features_out r2) ∧
      labels_out r1 = labels_out r2 ∧
      indices_out r1 = indices_out r2
  | inl e1, inl e2 => e1 = e2
  | _, _ => False
  end.
Proof.
  apply (@sample_deterministic lcg Z 0%Z (ex_sampler 1 2 false) ex_X
           ex_X_sparse ex_y 0%N 5%N 2%Z).
  - reflexivity.
  - vm_compute. reflexivity.
Defined.

Lemma untargeted_class_kept_witness :
  ∃ idx r,
    sample_returns (ex_sampler 1 2 false) ex_X ex_y 0%N idx r ∧
    rows_of_class ex_y 0 idx = class_rows ex_y 0 ∧
    StronglySorted lt (class_rows ex_y 0) ∧
    ∀ i, i ∈ class_rows ex_y 0 ↔ ex_y !! i = Some 0%Z.
Proof.
  apply (@untargeted_class_kept lcg lcg_ok Z (ex_sampler 1 2 false) ex_X
           ex_y 0%N 0%Z).
  - reflexivity.
  - vm_compute. reflexivity.
  - apply (bool_decide_unpack _). vm_compute. exact I.
  - vm_compute. reflexivity.
Defined.

Lemma sample_too_many_fails_witness :
  _sample (ex_sampler 1 5 false) ex_X ex_y 0%N = inl SamplingError ∧
  index_selection (ex_sampler 1 5 false) ex_y 0%N = inl SamplingError.
Proof.
  apply (@sample_too_many_fails lcg Z (ex_sampler 1 5 false) ex_X ex_y 0%N
           1%Z 5).
  - reflexivity.
  - apply (bool_decide_unpack _). vm_compute. exact I.
  - vm_compute. reflexivity.
  - vm_compute. lia.
Defined.

Lemma absent_class_ignored_witness :
  _sample (with_target (ex_sampler 7 3 false)
             (delete 7%Z (sampling_target_ (ex_sampler 7 3 false))))
    ex_X ex_y 0%N =
  _sample (ex_sampler 7 3 false) ex_X ex_y 0%N.
Proof.
  apply (@absent_class_ignored lcg Z (ex_sampler 7 3 false) ex_X ex_y 0%N
           7%Z).
  apply (bool_decide_unpack _). vm_compute. exact I.
Defined.

Lemma sample_block_order_witness :
  ∃ blocks r,
    sample_returns (ex_sampler 1 4 false) ex_X ex_y 0%N (concat blocks) r ∧
    class_blocks (ex_sampler 1 4 false) ex_y (np.unique ex_y)
      (check_random_state (random_state (ex_sampler 1 4 false)) 0%N)
      blocks ∧
    StronglySorted Z.lt (np.unique ex_y) ∧
    (∀ c, c ∈ np.unique ex_y ↔ c ∈ ex_y) ∧
    Forall2 (λ c block,
      Forall (λ i, ex_y !! i = Some c) block ∧
      (sampling_target_ (ex_sampler 1 4 false) !! c = None →
       block = class_rows ex_y c ∧ StronglySorted lt block))
      (np.unique ex_y) blocks ∧
    StronglySorted Z.le (labels_out r).
Proof.
  apply (@sample_block_order lcg lcg_ok Z (ex_sampler 1 4 false) ex_X ex_y
           0%N).
  - reflexivity.
  - vm_compute. reflexivity.
Defined.

Lemma sample_returns_indices_witness :
  ∃ X' y' idx,
    index_selection (ex_sampler 1 2 false) ex_y 0%N = inr idx ∧
    _sample (ex_sampler 1 2 false) ex_X ex_y 0%N =
      inr (if return_indices (ex_sampler 1 2 false)
           then ResampledIdx X' y' idx else Resampled X' y') ∧
    n_rows X' = length idx ∧
    length y' = length idx ∧
    ∀ i, i < length idx →
      ∃ j, idx !! i = Some j ∧ j < length ex_y ∧
           matrix_rows X' !! i = matrix_rows ex_X !! j ∧
           y' !! i = ex_y !! j.
Proof.
  apply (@sample_returns_indices lcg lcg_ok Z (ex_sampler 1 2 false) ex_X
           ex_y 0%N).
  - reflexivity.
  - vm_compute. reflexivity.
Defined.

Lemma block_label_purity_witness :
  ∃ blocks r,
    sample_returns (ex_sampler 1 5 true) ex_X ex_y 0%N (concat blocks) r ∧
    class_blocks (ex_sampler 1 5 true) ex_y (np.unique ex_y)
      (check_random_state (random_state (ex_sampler 1 5 true)) 0%N)
      blocks ∧
    Forall2 (λ c block, Forall (λ i, ex_y !! i = Some c) block)
      (np.unique ex_y) blocks ∧
    ∀ c, c ∈ ex_y →
      class_count (labels_out r) c =
      resolved_count (sampling_target_ (ex_sampler 1 5 true)) ex_y c.
Proof.
  apply (@block_label_purity lcg lcg_ok Z (ex_sampler 1 5 true) ex_X ex_y
           0%N).
  - reflexivity.
  - vm_compute. reflexivity.
Defined.

Lemma full_count_permutation_witness :
  ∃ idx r,
    sample_returns (ex_sampler 1 4 false) ex_X ex_y 0%N idx r ∧
    rows_of_class ex_y 1 idx ≡ₚ class_rows ex_y 1 ∧
    NoDup (rows_of_class ex_y 1 idx).
Proof.
  apply (@full_count_permutation lcg lcg_ok Z (ex_sampler 1 4 false) ex_X
           ex_y 0%N 1%Z).
  - reflexivity.
  - reflexivity.
  - vm_compute. reflexivity.
  - apply (bool_decide_unpack _). vm_compute. exact I.
  - vm_compute. reflexivity.
Defined.

(** * Further properties of the sample operation *)

Section further_facts.
Context {R : RandomSource}.
Implicit Types (self : RandomUnderSampler) (y : list Z) (c : Z).

Lemma feasible_with_replacement self y :
  replacement self = true → feasible self y = true.
Proof.
  intros Hr. unfold feasible. apply forallb_forall. intros c _.
  unfold class_feasible. rewrite Hr.
  by destruct (sampling_target_ self !! c).
Qed.

Lemma forallb_false {A} (f : A → bool) (l : list A) :
  forallb f l = false → ∃ x, x ∈ l ∧ f x = false.
Proof.
  induction l as [|x l IH]; simpl; [done|].
  destruct (f x) eqn:Hx; simpl.
  - intros (x' & ? & ?)%IH. exists x'. split; [by right|done].
  - intros _. exists x. split; [by left|done].
Qed.

(** What makes the counts not drawable. *)
Lemma infeasible_class self y :
  feasible self y = false →
  ∃ c n, c ∈ y ∧ replacement self = false ∧
         sampling_target_ self !! c = Some n ∧ class_count y c < n.
Proof.
  intros (c & Hc & Hf)%forallb_false. rewrite unique_elem in Hc.
  unfold class_feasible in Hf.
  destruct (sampling_target_ self !! c) as [n|] eqn:Hm; [|done].
  apply orb_false_iff in Hf as [Hr Hn]. apply bool_decide_eq_false in Hn.
  exists c, n. split; [done|]. split; [done|]. split; [done|lia].
Qed.

Lemma full_counts_feasible self y :
  (∀ c n, c ∈ y → sampling_target_ self !! c = Some n →
          n = class_count y c) →
  feasible self y = true.
Proof.
  intros Hfull. unfold feasible. apply forallb_forall.
  intros c Hc%list_elem_of_In. rewrite unique_elem in Hc.
  unfold class_feasible.
  destruct (sampling_target_ self !! c) as [n|] eqn:Hm; [|done].
  rewrite (Hfull c n Hc Hm). apply orb_true_iff. right.
  by apply bool_decide_eq_true.
Qed.

(** The labels read at the blocks are the classes, each repeated over the
    length of its block. *)
Lemma blocks_labels_grouped self y cs blocks (y' : list Z) :
  Forall2 (block_ok self y) cs blocks →
  Forall2 (λ i v, y !! i = Some v) (concat blocks) y' →
  y' = concat ((λ c, replicate (resolved_count (sampling_target_ self) y c) c)
               <$> cs).
Proof.
  intros H. revert y'.
  induction H as [|c b cs blocks Hb Hbs IH]; intros y' Hy'; simpl in Hy'.
  - by apply Forall2_nil_inv_l in Hy' as ->.
  - apply Forall2_app_inv_l in Hy' as (y1 & y2 & Hy1 & Hy2 & ->).
    csimpl. f_equal; [|by apply IH]. symmetry. apply replicate_as_Forall_2.
    + by rewrite <- (Forall2_length _ _ _ Hy1), (block_ok_length _ _ _ _ Hb).
    + apply Forall_forall. intros v Hv.
      destruct (sliced_label _ _ _ _ Hy1 Hv) as (i & Hi & Hyi).
      rewrite (block_ok_label _ _ _ _ _ Hb Hi) in Hyi. by injection Hyi.
Qed.

(** When every class that is a key is asked its size, each row of a class
    of the loop is in some block. *)
Lemma blocks_cover self y cs blocks (i : nat) c :
  replacement self = false → NoDup cs →
  Forall2 (block_ok self y) cs blocks →
  (∀ c n, c ∈ cs → sampling_target_ self !! c = Some n →
          n = class_count y c) →
  c ∈ cs → y !! i = Some c → i ∈ concat blocks.
Proof.
  intros Hr Hnd Hok Hfull Hc Hi.
  assert (i ∈ rows_of_class y c (concat blocks)) as Hin;
    [|by apply list_elem_of_filter in Hin as [_ ?]].
  destruct (rows_of_class_ok self y cs blocks c Hnd Hok Hc) as [_ Hb].
  destruct (sampling_target_ self !! c) as [n|] eqn:Hm.
  - destruct Hb as [_ Hb]. destruct (Hb Hr) as [_ Hperm].
    rewrite (Hperm (Hfull c n Hc Hm)). by apply class_rows_elem.
  - rewrite Hb. by apply class_rows_elem.
Qed.

Lemma blocks_all_rows self y blocks :
  replacement self = false →
  Forall2 (block_ok self y) (np.unique y) blocks →
  (∀ c n, c ∈ y → sampling_target_ self !! c = Some n →
          n = class_count y c) →
  concat blocks ≡ₚ seq 0 (length y).
Proof.
  intros Hr Hok Hfull. apply NoDup_Permutation.
  - eapply blocks_NoDup; [done|apply unique_NoDup|done].
  - apply NoDup_seq.
  - intros i. rewrite elem_of_seq. split.
    + intros Hi. pose proof (blocks_in_range _ _ _ _ Hok) as Hlt.
      rewrite Forall_forall in Hlt. specialize (Hlt _ Hi). lia.
    + intros [_ Hi]. destruct (lookup_lt_is_Some_2 y i) as [c Hc]; [lia|].
      apply (blocks_cover self y (np.unique y) blocks i c);
        [done|apply unique_NoDup|done| |by eapply unique_elem,
                                             list_elem_of_lookup_2|done].
      intros c' n Hc'. apply Hfull. by apply unique_elem.
Qed.

(** The loop over classes that are not keys draws nothing. *)
Lemma sample_classes_untargeted self y cs idx st :
  Forall (λ c, sampling_target_ self !! c = None) cs →
  sample_classes self y cs idx st =
  inr (idx ++ concat (class_rows y <$> cs), st).
Proof.
  intros H. revert idx. induction H as [|c cs Hc _ IH]; intros idx; csimpl.
  - unfold ret. by rewrite app_nil_r.
  - unfold bind. rewrite sample_class_run, Hc, IH. by rewrite <- app_assoc.
Qed.

Lemma take_out_of_range {A} (a : list A) (ix : list nat) :
  ¬ Forall (λ i, i < length a) ix → np.take a ix = inl OutOfBounds.
Proof.
  intros Hnot. destruct (np.take a ix) as [e|xs] eqn:Htake.
  - by rewrite (take_error _ _ _ Htake).
  - destruct Hnot. apply take_spec in Htake. apply Forall_forall.
    intros i [k Hk]%list_elem_of_lookup.
    destruct (Forall2_lookup_l _ _ _ _ _ Htake Hk) as (x & _ & Hx).
    by eapply lookup_lt_Some.
Qed.

(** The slicing step, for features of any number of rows. *)
Lemma sample_slices_within {A} self (X : matrix A) y g idx :
  index_selection self y g = inr idx →
  Forall (λ i, i < length y) idx → Forall (λ i, i < n_rows X) idx →
  ∃ r, sample_returns self X y g idx r.
Proof.
  intros Hidx Hy HX. unfold sample_returns, _sample, sliced_at.
  rewrite Hidx.
  destruct (take_in_range y idx Hy) as [y' Hy'].
  assert (∃ xs, np.take (matrix_rows X) idx = inr xs) as [xs Hxs].
  { apply take_in_range. by rewrite matrix_rows_length. }
  rewrite safe_indexing_rows in Hxs.
  destruct (safe_indexing X idx) as [e|X'] eqn:HX'; [done|].
  injection Hxs as <-.
  pose proof (safe_indexing_rows X idx) as Hrows. rewrite HX' in Hrows.
  apply take_spec in Hrows.
  change (safe_indexing y idx) with (np.take y idx). rewrite Hy'.
  apply take_spec in Hy'.
  destruct (return_indices self); eexists; repeat split; done.
Qed.

Lemma index_selection_in_range self y g idx :
  index_selection self y g = inr idx → Forall (λ i, i < length y) idx.
Proof.
  intros (blocks & -> & Hbl)%index_selection_blocks.
  eapply blocks_in_range, class_blocks_ok, Hbl.
Qed.

End further_facts.

Section further_properties.
Context {R : RandomSource}.
Implicit Types (self : RandomUnderSampler) (y : list Z) (c : Z).

(** X1. The output labels do not depend on the draws: they are the classes
    of the labels in ascending order, each repeated as many times as its
    resolved count. *)
Theorem labels_grouped `{!RandomSourceOk R} {A} self (X : matrix A) y g :
  n_rows X = length y →
  feasible self y = true →
  ∃ idx r,
    sample_returns self X y g idx r ∧
    labels_out r = grouped_labels (sampling_target_ self) y.
Proof.
  intros HX Hf.
  destruct (sample_spec self X y g HX Hf) as (blocks & r & Hret & _ & Hok).
  exists (concat blocks), r. split; [done|].
  destruct Hret as (_ & _ & _ & _ & Hy').
  by apply (blocks_labels_grouped self y (np.unique y) blocks).
Qed.

(** X2. Drawing without replacement, the output never has more rows than
    the input. *)
Theorem without_replacement_never_grows `{!RandomSourceOk R} {A} self
    (X : matrix A) y g :
  replacement self = false →
  n_rows X = length y →
  feasible self y = true →
  ∃ idx r,
    sample_returns self X y g idx r ∧
    length (labels_out r) ≤ length y ∧
    n_rows (features_out r) ≤ n_rows X.
Proof.
  intros Hr HX Hf.
  destruct (sample_spec self X y g HX Hf) as (blocks & r & Hret & _ & Hok).
  exists (concat blocks), r. split; [done|].
  assert (length (concat blocks) ≤ length y) as Hlen.
  { transitivity (length (seq 0 (length y))); [|by rewrite length_seq].
    apply submseteq_length, NoDup_submseteq.
    - eapply blocks_NoDup; [done|apply unique_NoDup|done].
    - intros i Hi. apply elem_of_seq.
      pose proof (blocks_in_range _ _ _ _ Hok) as Hlt.
      rewrite Forall_forall in Hlt. specialize (Hlt _ Hi). lia. }
  destruct Hret as (_ & _ & _ & HXr & Hyr).
  apply Forall2_length in HXr, Hyr. rewrite matrix_rows_length in HXr.
  lia.
Qed.

(** X3. When no class of the labels is a key of the target mapping, the
    call draws nothing: whatever the generator and the replacement flag, the
    Index Selection is the rows grouped by class in ascending order, each
    class in original order, and every row is in it exactly once. *)
Theorem untargeted_only_groups {A} self (X : matrix A) y g :
  n_rows X = length y →
  (∀ c, c ∈ y → sampling_target_ self !! c = None) →
  ∃ r,
    sample_returns self X y g (grouped_rows y) r ∧
    grouped_rows y ≡ₚ seq 0 (length y).
Proof.
  intros HX Hnone.
  assert (∀ self', sampling_target_ self' = sampling_target_ self →
            ∀ g', index_selection self' y g' = inr (grouped_rows y)) as Hidx.
  { intros self' Hm g'. unfold index_selection.
    rewrite sample_classes_untargeted; [done|].
    apply Forall_forall. intros c Hc. rewrite unique_elem in Hc.
    rewrite Hm. by apply Hnone. }
  destruct (sample_slices self X y g (grouped_rows y) HX (Hidx self eq_refl g))
    as [r Hr].
  { exact (index_selection_in_range self y g _ (Hidx self eq_refl g)). }
  exists r. split; [done|].
  set (self' := {| sampling_target_ := sampling_target_ self;
                   return_indices := return_indices self;
                   random_state := random_state self;
                   replacement := false |}).
  destruct (index_selection_blocks self' y g _ (Hidx self' eq_refl g))
    as (blocks & -> & Hbl).
  apply (blocks_all_rows self'); [done|by eapply class_blocks_ok|].
  intros c n Hc Hm. simpl in Hm. by rewrite Hnone in Hm.
Qed.

(** X4. Drawing without replacement, when every class that is a key is asked
    exactly its size, no row is lost: the Index Selection is a permutation
    of all the row positions. *)
Theorem full_counts_keep_every_row `{!RandomSourceOk R} {A} self
    (X : matrix A) y g :
  replacement self = false →
  n_rows X = length y →
  (∀ c n, c ∈ y → sampling_target_ self !! c = Some n →
          n = class_count y c) →
  ∃ idx r,
    sample_returns self X y g idx r ∧
    idx ≡ₚ seq 0 (length y) ∧
    length (labels_out r) = length y.
Proof.
  intros Hr HX Hfull.
  destruct (sample_spec self X y g HX (full_counts_feasible _ _ Hfull))
    as (blocks & r & Hret & _ & Hok).
  exists (concat blocks), r. split; [done|].
  pose proof (blocks_all_rows self y blocks Hr Hok Hfull) as Hperm.
  split; [done|]. destruct Hret as (_ & _ & _ & _ & Hyr).
  by rewrite <- (Forall2_length _ _ _ Hyr), Hperm, length_seq.
Qed.

(** X5. Drawing with replacement, every count can be drawn: the call
    succeeds whatever the mapping asks, and a class asked [n] rows has [n]
    rows in the output, also when [n] is more than the class has. *)
Theorem with_replacement_always_drawable `{!RandomSourceOk R} {A} self
    (X : matrix A) y g :
  replacement self = true →
  n_rows X = length y →
  ∃ idx r,
    sample_returns self X y g idx r ∧
    ∀ c n, c ∈ y → sampling_target_ self !! c = Some n →
      length (rows_of_class y c idx) = n ∧
      class_count (labels_out r) c = n.
Proof.
  intros Hr HX.
  destruct (sample_spec self X y g HX (feasible_with_replacement _ _ Hr))
    as (blocks & r & Hret & _ & Hok).
  exists (concat blocks), r. split; [done|]. intros c n Hc Hm.
  assert (length (rows_of_class y c (concat blocks)) = n) as Hlen.
  { rewrite (block_ok_length self y c).
    - unfold resolved_count. by rewrite Hm.
    - apply (rows_of_class_ok self y (np.unique y));
        [apply unique_NoDup|done|by apply unique_elem]. }
  split; [done|]. destruct Hret as (_ & _ & _ & _ & Hy').
  by rewrite (class_count_sliced _ _ _ _ Hy').
Qed.

(** X6. Drawing with replacement more rows than a class has, some row of the
    class is selected more than once. *)
Theorem oversized_draw_repeats `{!RandomSourceOk R} {A} self (X : matrix A)
    y g c (n : nat) :
  replacement self = true →
  n_rows X = length y →
  c ∈ y →
  sampling_target_ self !! c = Some n →
  class_count y c < n →
  ∃ idx r,
    sample_returns self X y g idx r ∧
    ¬ NoDup (rows_of_class y c idx) ∧
    ¬ NoDup idx.
Proof.
  intros Hr HX Hc Hm Hn.
  destruct (sample_spec self X y g HX (feasible_with_replacement _ _ Hr))
    as (blocks & r & Hret & _ & Hok).
  exists (concat blocks), r. split; [done|].
  assert (¬ NoDup (rows_of_class y c (concat blocks))) as Hrep.
  { intros Hnd.
    pose proof (rows_of_class_ok self y (np.unique y) blocks c
                  (unique_NoDup y) Hok (proj2 (unique_elem y c) Hc)) as Hb.
    pose proof (block_ok_length _ _ _ _ Hb) as Hlen.
    unfold resolved_count in Hlen. rewrite Hm in Hlen.
    assert (rows_of_class y c (concat blocks) ⊆+ class_rows y c) as Hsub.
    { apply NoDup_submseteq; [done|]. intros i Hi. apply class_rows_elem.
      by eapply block_ok_label. }
    apply submseteq_length in Hsub. rewrite class_rows_length in Hsub. lia. }
  split; [done|]. intros Hnd. apply Hrep. by apply NoDup_filter.
Qed.

(** X7. The loop over the classes fails in one way only: it returns the
    Index Selection when every count can be drawn, and raises
    [SamplingError] otherwise; an empty population or an index out of
    bounds never comes out of it. *)
Theorem selection_outcome `{!RandomSourceOk R} self y g :
  if feasible self y
  then ∃ idx, index_selection self y g = inr idx
  else index_selection self y g = inl SamplingError.
Proof.
  destruct (feasible self y) eqn:Hf.
  - by apply index_selection_succeeds.
  - destruct (infeasible_class _ _ Hf) as (c & n & Hc & Hr & Hm & Hn).
    unfold index_selection.
    rewrite (sample_classes_too_many self y (np.unique y) [] _ c n);
      [done|done| |by apply unique_elem|done|done].
    apply Forall_forall. intros c'. by rewrite unique_elem.
Qed.

(** X8. Once the Index Selection is made, the call returns when the features
    have a row at every position selected, and raises [IndexError]
    otherwise; the labels always have one. *)
Theorem slicing_outcome {A} self (X : matrix A) y g idx :
  index_selection self y g = inr idx →
  Forall (λ i, i < length y) idx ∧
  (Forall (λ i, i < n_rows X) idx → ∃ r, sample_returns self X y g idx r) ∧
  (¬ Forall (λ i, i < n_rows X) idx →
   _sample self X y g = inl OutOfBounds).
Proof.
  intros Hidx. pose proof (index_selection_in_range _ _ _ _ Hidx) as Hy.
  split; [done|]. split.
  - intros HX. by apply sample_slices_within.
  - intros HX. unfold _sample. rewrite Hidx.
    pose proof (safe_indexing_rows X idx) as Hrows.
    rewrite take_out_of_range in Hrows by by rewrite matrix_rows_length.
    by destruct (safe_indexing X idx) as [e|X']; [injection Hrows as <-|].
Qed.

(** X9. Resampling the output with the same estimator, without replacement,
    loses no row: every class that is a key now has exactly the size asked,
    so the second Index Selection is a permutation of all the positions of
    the first output. *)
Theorem resample_keeps_rows `{!RandomSourceOk R} {A} self (X : matrix A)
    y g idx r g2 :
  replacement self = false →
  sample_returns self X y g idx r →
  ∃ idx2 r2,
    sample_returns self (features_out r) (labels_out r) g2 idx2 r2 ∧
    idx2 ≡ₚ seq 0 (length (labels_out r)) ∧
    length (labels_out r2) = length (labels_out r).
Proof.
  intros Hr (Hidx & Hrun & Hout & HXr & Hyr).
  destruct (index_selection_blocks _ _ _ _ Hidx) as (blocks & -> & Hbl).
  pose proof (class_blocks_ok _ _ _ _ _ Hbl) as Hok.
  assert (∀ c n, c ∈ labels_out r → sampling_target_ self !! c = Some n →
                 n = class_count (labels_out r) c) as Hfull.
  { intros c n Hc Hm.
    destruct (sliced_label _ _ _ _ Hyr Hc) as (i & Hi & Hyi).
    rewrite (class_count_sliced _ _ _ _ Hyr), (block_ok_length self y c).
    - unfold resolved_count. by rewrite Hm.
    - apply (rows_of_class_ok self y (np.unique y));
        [apply unique_NoDup|done|].
      apply unique_elem. by eapply list_elem_of_lookup_2. }
  assert (n_rows (features_out r) = length (labels_out r)) as HX'.
  { apply Forall2_length in HXr, Hyr. rewrite matrix_rows_length in HXr.
    congruence. }
  destruct (sample_spec self (features_out r) (labels_out r) g2 HX'
              (full_counts_feasible _ _ Hfull))
    as (blocks2 & r2 & Hret2 & _ & Hok2).
  exists (concat blocks2), r2. split; [done|].
  pose proof (blocks_all_rows self _ blocks2 Hr Hok2 Hfull) as Hperm.
  split; [done|]. destruct Hret2 as (_ & _ & _ & _ & Hyr2).
  by rewrite <- (Forall2_length _ _ _ Hyr2), Hperm, length_seq.
Qed.

End further_properties.

(** * The further properties, on the small data set *)

Lemma labels_grouped_witness :
  ∃ idx r,
    sample_returns (ex_sampler 1 2 false) ex_X ex_y 0%N idx r ∧
    labels_out r =
      grouped_labels (sampling_target_ (ex_sampler 1 2 false)) ex_y.
Proof.
  apply (@labels_grouped lcg lcg_ok Z (ex_sampler 1 2 false) ex_X ex_y 0%N).
  - reflexivity.
  - vm_compute. reflexivity.
Defined.

Lemma without_replacement_never_grows_witness :
  ∃ idx r,
    sample_returns (ex_sampler 1 2 false) ex_X ex_y 0%N idx r ∧
    length (labels_out r) ≤ length ex_y ∧
    n_rows (features_out r) ≤ n_rows ex_X.
Proof.
  apply (@without_replacement_never_grows lcg lcg_ok Z
           (ex_sampler 1 2 false) ex_X ex_y 0%N).
  - reflexivity.
  - reflexivity.
  - vm_compute. reflexivity.
Defined.

Lemma untargeted_only_groups_witness :
  ∃ r,
    sample_returns (ex_sampler 7 3 true) ex_X ex_y 0%N (grouped_rows ex_y)
      r ∧
    grouped_rows ex_y ≡ₚ seq 0 (length ex_y).
Proof.
  apply (@untargeted_only_groups lcg Z (ex_sampler 7 3 true) ex_X ex_y 0%N).
  - reflexivity.
  - apply Forall_forall. apply (bool_decide_unpack _). vm_compute. exact I.
Defined.

Lemma full_counts_keep_every_row_witness :
  ∃ idx r,
    sample_returns (ex_sampler 1 4 false) ex_X ex_y 0%N idx r ∧
    idx ≡ₚ seq 0 (length ex_y) ∧
    length (labels_out r) = length ex_y.
Proof.
  apply (@full_counts_keep_every_row lcg lcg_ok Z (ex_sampler 1 4 false)
           ex_X ex_y 0%N).
  - reflexivity.
  - reflexivity.
  - intros c n _ Hm. simpl in Hm.
    apply lookup_singleton_Some in Hm as [<- <-]. vm_compute. reflexivity.
Defined.

Lemma with_replacement_always_drawable_witness :
  ∃ idx r,
    sample_returns (ex_sampler 1 5 true) ex_X ex_y 0%N idx r ∧
    ∀ c n, c ∈ ex_y →
      sampling_target_ (ex_sampler 1 5 true) !! c = Some n →
      length (rows_of_class ex_y c idx) = n ∧
      class_count (labels_out r) c = n.
Proof.
  apply (@with_replacement_always_drawable lcg lcg_ok Z
           (ex_sampler 1 5 true) ex_X ex_y 0%N).
  - reflexivity.
  - reflexivity.
Defined.

Lemma oversized_draw_repeats_witness :
  ∃ idx r,
    sample_returns (ex_sampler 1 5 true) ex_X ex_y 0%N idx r ∧
    ¬ NoDup (rows_of_class ex_y 1 idx) ∧
    ¬ NoDup idx.
Proof.
  apply (@oversized_draw_repeats lcg lcg_ok Z (ex_sampler 1 5 true) ex_X
           ex_y 0%N 1%Z 5).
  - reflexivity.
  - reflexivity.
  - apply (bool_decide_unpack _). vm_compute. exact I.
  - vm_compute. reflexivity.
  - vm_compute. lia.
Defined.

Lemma selection_outcome_witness :
  if feasible (ex_sampler 1 5 false) ex_y
  then ∃ idx, index_selection (ex_sampler 1 5 false) ex_y 0%N = inr idx
  else index_selection (ex_sampler 1 5 false) ex_y 0%N = inl SamplingError.
Proof.
  exact (@selection_outcome lcg lcg_ok (ex_sampler 1 5 false) ex_y 0%N).
Defined.

Lemma slicing_outcome_witness :
  Forall (λ i, i < length ex_y) [1; 4; 0; 2; 3; 5] ∧
  (Forall (λ i, i < n_rows ex_X_short) [1; 4; 0; 2; 3; 5] →
   ∃ r, sample_returns (ex_sampler 7 3 false) ex_X_short ex_y 0%N
          [1; 4; 0; 2; 3; 5] r) ∧
  (¬ Forall (λ i, i < n_rows ex_X_short) [1; 4; 0; 2; 3; 5] →
   _sample (ex_sampler 7 3 false) ex_X_short ex_y 0%N = inl OutOfBounds).
Proof.
  apply (@slicing_outcome lcg Z (ex_sampler 7 3 false) ex_X_short ex_y 0%N
           [1; 4; 0; 2; 3; 5]).
  vm_compute. reflexivity.
Defined.

Lemma resample_keeps_rows_witness :
  ∃ idx2 r2,
    sample_returns (ex_sampler 1 2 false)
      (Dense [[11]; [14]; [15]; [12]]%Z) [0; 0; 1; 1]%Z 7%N idx2 r2 ∧
    idx2 ≡ₚ seq 0 4 ∧
    length (labels_out r2) = 4.
Proof.
  apply (@resample_keeps_rows lcg lcg_ok Z (ex_sampler 1 2 false) ex_X ex_y
           0%N [1; 4; 5; 2]
           (ResampledIdx (Dense [[11]; [14]; [15]; [12]]%Z) [0; 0; 1; 1]%Z
                         [1; 4; 5; 2]) 7%N).
  - reflexivity.
  - split; [vm_compute; reflexivity|].
    split; [vm_compute; reflexivity|].
    split; [reflexivity|].
    split; repeat constructor.
Defined.
